(** * celldb client: a shallow embedding of [celldb/client/client.py]

    The client builds SQL text by string formatting and hands it to a
    phoenixdb cursor.  Statements are modelled as [string]s, exactly as the
    source builds them; the cursor is an arbitrary backend together with the
    list of statements that were handed to [cursor.execute]. *)

From stdpp Require Import base strings list gmap.
From Stdlib Require Import Ascii ZArith DecimalString.

Local Open Scope string_scope.
Local Open Scope list_scope.

(** ** Python helpers *)

(** [sep.join(xs)] *)
Definition join (sep : string) (xs : list string) : string :=
  String.concat sep xs.

(** [str(x)] for the numeric values of an expression vector. *)
Class Str (V : Type) := str : V → string.

(** Truthiness of an optional string argument ([None] and [""] are falsy). *)
Definition truthy_str (o : option string) : bool :=
  match o with
  | Some (String _ _) => true
  | _ => false
  end.

(** Truthiness of an optional list argument ([None] and [[]] are falsy). *)
Definition truthy_list {A} (o : option (list A)) : bool :=
  match o with
  | Some (_ :: _) => true
  | _ => false
  end.

(** [len(x)] of an optional list, used only where the list is truthy. *)
Definition len_opt {A} (o : option (list A)) : nat :=
  match o with
  | Some l => length l
  | None => 0
  end.

(** ** Exceptions and results *)

Inductive exn :=
| Exception (msg : string)      (* [raise Exception(msg)] *)
| IndexError                    (* list index out of range *)
| DatabaseError (msg : string). (* raised by the cursor or the connection *)

Inductive result (A : Type) :=
| Ok (a : A)
| Raise (e : exn).
Arguments Ok {A} a.
Arguments Raise {A} e.

(** ** The cursor *)

(** One cell of a fetched row. *)
Inductive cell (V : Type) :=
| Text (s : string)
| Num (v : V)
| Null.
Arguments Text {V} s.
Arguments Num {V} v.
Arguments Null {V}.

(** What stands behind a cursor: a state, the effect of [execute] on it
    (possibly raising), and [fetchall]. *)
Record Backend (V : Type) := {
  db : Type;
  run : string → db → option exn * db;
  fetch : db → result (list (list (cell V))) * db
}.
Arguments db {V} b.
Arguments run {V} b sql d.
Arguments fetch {V} b d.

(** The cursor as the client sees it: the backend state, the statements
    passed to [execute] so far (oldest first), and what was printed. *)
Record cursor {V : Type} (B : Backend V) := {
  store : db B;
  issued : list string;
  printed : list exn
}.
Arguments store {V B} c.
Arguments issued {V B} c.
Arguments printed {V B} c.

(** ** The constant column type *)

Definition DTYPE : string := "DECIMAL(10, 6)".

(** ** Statement text (the [format] calls of the source) *)

Definition create_expressions_sql : string :=
  "CREATE TABLE Expressions (sampleId VARCHAR PRIMARY KEY)".

Definition create_features_sql : string :=
  "CREATE TABLE Features " +:+
  "(featureId VARCHAR PRIMARY KEY, featureName VARCHAR)".

Definition upsert_feature_sql (featureId : string)
    (featureName : option string) : string :=
  if truthy_str featureName then
    "UPSERT INTO Features(featureId, " +:+
    "featureName) VALUES ('" +:+ featureId +:+ "', '" +:+
    default "" featureName +:+ "')"
  else
    "UPSERT INTO Features(featureId) VALUES ('" +:+ featureId +:+ "')".

Definition _feature_dtype_list (featureIds : list string) : string :=
  join ", " (map (λ x, x +:+ " " +:+ DTYPE) featureIds).

Definition upsert_sample_sql `{Str V} (sampleId : string)
    (featureIds : list string) (values : list V) : string :=
  "UPSERT INTO Expressions(sampleId, " +:+ join ", " featureIds +:+
  ") VALUES ('" +:+ sampleId +:+ "', " +:+
  join ", " (map (λ x, str x) values) +:+ ")".

Definition alter_sql (featureIds : list string) : string :=
  "ALTER TABLE Expressions ADD " +:+ _feature_dtype_list featureIds.

Definition matrix_sql (sampleIds featureIds : list string) : string :=
  let feature_list := join ", " featureIds in
  let sample_list := join ", " (map (λ x, "'" +:+ x +:+ "'") sampleIds) in
  "SELECT sampleId, " +:+ feature_list +:+ " from Expressions " +:+
  "WHERE sampleId IN(" +:+ sample_list +:+ ")".

(** ** Operations on a cursor *)

Section Client.
Context {V : Type} `{Str V} (B : Backend V).

(** A computation on the cursor that returns or raises. *)
Definition M (A : Type) : Type := cursor B → result A * cursor B.

Definition ret {A} (a : A) : M A := λ c, (Ok a, c).

Definition raise {A} (e : exn) : M A := λ c, (Raise e, c).

Definition bind {A A'} (m : M A) (k : A → M A') : M A' :=
  λ c, match m c with
       | (Ok a, c') => k a c'
       | (Raise e, c') => (Raise e, c')
       end.

(** [for x in xs: body(x)] *)
Fixpoint for_each {A} (xs : list A) (body : A → M ()) : M () :=
  match xs with
  | [] => ret ()
  | x :: xs' => bind (body x) (λ _, for_each xs' body)
  end.

(** [enumerate(xs)] *)
Fixpoint enumerate_from {A} (k : nat) (xs : list A) : list (nat * A) :=
  match xs with
  | [] => []
  | x :: xs' => (k, x) :: enumerate_from (S k) xs'
  end.

Definition enumerate {A} (xs : list A) : list (nat * A) :=
  enumerate_from 0 xs.

(** [cursor.execute(sql)] *)
Definition execute (sql : string) : M () :=
  λ c, let '(o, d) := run B sql (store c) in
       let c' := {| store := d; issued := issued c ++ [sql];
                    printed := printed c |} in
       match o with
       | None => (Ok (), c')
       | Some e => (Raise e, c')
       end.

(** [cursor.fetchall()] *)
Definition fetchall : M (list (list (cell V))) :=
  λ c, let '(r, d) := fetch B (store c) in
       (r, {| store := d; issued := issued c; printed := printed c |}).

(** [print(e)] *)
Definition print (e : exn) : M () :=
  λ c, (Ok (), {| store := store c; issued := issued c;
                  printed := printed c ++ [e] |}).

Definition _create_expressions_table : M () :=
  execute create_expressions_sql.

Definition _create_features_table : M () :=
  execute create_features_sql.

Definition _upsert_feature (featureId : string)
    (featureName : option string) : M () :=
  execute (upsert_feature_sql featureId featureName).

Definition _upsert_sample (sampleId : string) (featureIds : list string)
    (values : list V) : M () :=
  execute (upsert_sample_sql sampleId featureIds values).

Definition _alter_expressions_table (featureIds : list string) : M () :=
  execute (alter_sql featureIds).

Definition upsert_feature (featureId : string)
    (featureName : option string) : M () :=
  bind (_alter_expressions_table [featureId]) (λ _,
  _upsert_feature featureId featureName).

Definition _upsert_features (featureIds : list string)
    (featureNames : option (list string)) : M () :=
  if truthy_list featureNames
     && bool_decide (length featureIds = len_opt featureNames) then
    for_each (zip featureIds (default [] featureNames))
      (λ p, _upsert_feature p.1 (Some p.2))
  else if truthy_list featureNames then
    raise (Exception "list of featureIds and featureNames did not match")
  else
    for_each featureIds (λ featureId, _upsert_feature featureId None).

Definition upsert_features (featureIds : list string)
    (featureNames : option (list string)) : M () :=
  bind (_alter_expressions_table featureIds) (λ _,
  _upsert_features featureIds featureNames).

Definition upsert_sample (sampleId : string) (featureIds : list string)
    (values : list V) (add_features : bool) : M () :=
  bind (if add_features then
          bind (_alter_expressions_table featureIds) (λ _,
          _upsert_features featureIds None)
        else ret ()) (λ _,
  _upsert_sample sampleId featureIds values).

Definition upsert_samples (sampleIds featureIds : list string)
    (vectors : list (list V)) : M () :=
  bind (_alter_expressions_table featureIds) (λ _,
  bind (_upsert_features featureIds None) (λ _,
  for_each (enumerate sampleIds) (λ p,
    match vectors !! p.1 with
    | Some v => _upsert_sample p.2 featureIds v
    | None => raise IndexError
    end))).

Definition matrix (sampleIds featureIds : list string)
    : M (list (list (cell V))) :=
  bind (execute (matrix_sql sampleIds featureIds)) (λ _, fetchall).

(** [_safe_fn(fn, *args)]: [ret] stays [None] when [fn] raises. *)
Definition _safe_fn {A} (fn : M A) : M (option A) :=
  λ c, match fn c with
       | (Ok a, c') => (Ok (Some a), c')
       | (Raise e, c') => bind (print e) (λ _, ret None) c'
       end.

(** A connection: [connection.cursor()] hands out a cursor or raises. *)
Record Connection := { new_cursor : result (cursor B) }.

Definition initialize (connection : Connection) : result (cursor B) :=
  match new_cursor connection with
  | Raise e => Raise e
  | Ok c0 =>
      let '(_, c1) := _safe_fn _create_expressions_table c0 in
      let '(_, c2) := _safe_fn _create_features_table c1 in
      Ok c2
  end.

End Client.

(** ** Reading statements back

    A reader for the statement shapes the client emits, used to say what a
    generated text selects or writes.  Blanks separate tokens; a literal is
    enclosed in single quotes, a doubled quote inside it standing for one
    quote character; parentheses and commas are tokens of their own; any
    other run of characters is a word. *)

Inductive token :=
| TWord (w : string)
| TStr (s : string)
| TLParen
| TRParen
| TComma.

Global Instance token_eq_dec : EqDecision token.
Proof. solve_decision. Defined.

Inductive cclass :=
| CSpace
| CQuote
| CPunct (t : token)
| COther.

Global Instance cclass_eq_dec : EqDecision cclass.
Proof. solve_decision. Defined.

Definition classify (c : ascii) : cclass :=
  if Ascii.eqb c " " then CSpace
  else if Ascii.eqb c "'" then CQuote
  else if Ascii.eqb c "(" then CPunct TLParen
  else if Ascii.eqb c ")" then CPunct TRParen
  else if Ascii.eqb c "," then CPunct TComma
  else COther.

Inductive lex_state :=
| Idle
| InWord (w : string)
| InStr (q : string)
| Closing (q : string).

Definition snoc (s : string) (c : ascii) : string := s +:+ String c "".

(** Tokens completed when the text ends in a given state. *)
Definition flush (st : lex_state) : option (list token) :=
  match st with
  | Idle => Some []
  | InWord w => Some [TWord w]
  | InStr _ => None
  | Closing q => Some [TStr q]
  end.

(** The token completed when a state is left at a boundary. *)
Definition emit (st : lex_state) (r : option (list token))
    : option (list token) :=
  match st with
  | InWord w => cons (TWord w) <$> r
  | Closing q => cons (TStr q) <$> r
  | _ => r
  end.

Fixpoint lex_go (st : lex_state) (s : string) : option (list token) :=
  match s with
  | "" => flush st
  | String c s' =>
      match st, classify c with
      | InStr q, CQuote => lex_go (Closing q) s'
      | InStr q, _ => lex_go (InStr (snoc q c)) s'
      | Closing q, CQuote => lex_go (InStr (snoc q c)) s'
      | InWord w, COther => lex_go (InWord (snoc w c)) s'
      | _, cls =>
          emit st
            match cls with
            | CSpace => lex_go Idle s'
            | CQuote => lex_go (InStr "") s'
            | CPunct t => cons t <$> lex_go Idle s'
            | COther => lex_go (InWord (String c "")) s'
            end
      end
  end.

Definition lex (s : string) : option (list token) := lex_go Idle s.

(** Column names: a letter or underscore, then letters, digits, underscores. *)
Definition is_letter (c : ascii) : bool :=
  let n := nat_of_ascii c in
  ((65 <=? n) && (n <=? 90) || (97 <=? n) && (n <=? 122) || (n =? 95))%nat.

Definition is_digit (c : ascii) : bool :=
  let n := nat_of_ascii c in ((48 <=? n) && (n <=? 57))%nat.

Fixpoint all_chars (p : ascii → bool) (s : string) : bool :=
  match s with
  | "" => true
  | String c s' => p c && all_chars p s'
  end.

Definition is_ident (s : string) : bool :=
  match s with
  | "" => false
  | String c s' => is_letter c && all_chars (λ c, is_letter c || is_digit c) s'
  end.

(** Text that can stand between single quotes as it is. *)
Definition quote_free (s : string) : bool :=
  all_chars (λ c, negb (Ascii.eqb c "'")) s.

(** Text that lexes as one word. *)
Definition is_word (s : string) : bool :=
  match s with
  | "" => false
  | _ => all_chars (λ c, bool_decide (classify c = COther)) s
  end.

Inductive statement :=
| CreateExpressions
| CreateFeatures
| AlterAdd (cols : list string)
| UpsertFeature (featureId : string) (featureName : option string)
| UpsertRow (cols : list string) (key : string) (vals : list string)
| Select (cols : list string) (keys : list string).

Definition word_of (t : token) : option string :=
  match t with TWord w => Some w | _ => None end.

Definition str_of (t : token) : option string :=
  match t with TStr s => Some s | _ => None end.

(** A non-empty comma-separated list of items, and what follows it. *)
Fixpoint sep_list (get : token → option string) (ts : list token)
    : option (list string * list token) :=
  match ts with
  | t :: ts1 =>
      match get t with
      | Some x =>
          match ts1 with
          | TComma :: ts2 => (λ p, (x :: p.1, p.2)) <$> sep_list get ts2
          | _ => Some ([x], ts1)
          end
      | None => None
      end
  | [] => None
  end.

Definition dtype_tokens : list token :=
  [TWord "DECIMAL"; TLParen; TWord "10"; TComma; TWord "6"; TRParen].

(** A non-empty comma-separated list of [name DECIMAL(10, 6)]. *)
Fixpoint coldefs (ts : list token) : option (list string * list token) :=
  match ts with
  | TWord w :: t1 :: t2 :: t3 :: t4 :: t5 :: t6 :: ts1 =>
      if decide ([t1; t2; t3; t4; t5; t6] = dtype_tokens) then
        match ts1 with
        | TComma :: ts2 => (λ p, (w :: p.1, p.2)) <$> coldefs ts2
        | _ => Some ([w], ts1)
        end
      else None
  | _ => None
  end.

(** Drops an expected run of tokens. *)
Fixpoint expect (pre ts : list token) : option (list token) :=
  match pre, ts with
  | [], _ => Some ts
  | p :: pre', t :: ts' => if decide (p = t) then expect pre' ts' else None
  | _ :: _, [] => None
  end.

Definition parse_create (ts : list token) : option statement :=
  if decide (Some ts = lex create_expressions_sql) then Some CreateExpressions
  else if decide (Some ts = lex create_features_sql) then Some CreateFeatures
  else None.

Definition parse_alter (ts : list token) : option statement :=
  ts ← expect (TWord <$> ["ALTER"; "TABLE"; "Expressions"; "ADD"]) ts;
  p ← coldefs ts;
  if decide (p.2 = []) then
    if forallb is_ident p.1 then Some (AlterAdd p.1) else None
  else None.

Definition parse_upsert_feature (ts : list token) : option statement :=
  ts ← expect (TWord <$> ["UPSERT"; "INTO"; "Features"]) ts;
  match ts with
  | [TLParen; TWord c1; TRParen; TWord v; TLParen; TStr x; TRParen] =>
      if decide (c1 = "featureId" ∧ v = "VALUES")
      then Some (UpsertFeature x None) else None
  | [TLParen; TWord c1; TComma; TWord c2; TRParen;
     TWord v; TLParen; TStr x; TComma; TStr y; TRParen] =>
      if decide (c1 = "featureId" ∧ c2 = "featureName" ∧ v = "VALUES")
      then Some (UpsertFeature x (Some y)) else None
  | _ => None
  end.

Definition parse_upsert_row (ts : list token) : option statement :=
  ts ← expect (TWord <$> ["UPSERT"; "INTO"; "Expressions"]) ts;
  ts ← expect [TLParen; TWord "sampleId"; TComma] ts;
  cols ← sep_list word_of ts;
  ts ← expect [TRParen; TWord "VALUES"; TLParen] cols.2;
  match ts with
  | TStr key :: TComma :: ts =>
      vals ← sep_list word_of ts;
      if decide (vals.2 = [TRParen]) then
        if forallb is_ident cols.1 then Some (UpsertRow cols.1 key vals.1)
        else None
      else None
  | _ => None
  end.

Definition parse_select (ts : list token) : option statement :=
  ts ← expect [TWord "SELECT"] ts;
  cols ← sep_list word_of ts;
  ts ← expect (TWord <$> ["from"; "Expressions"; "WHERE"; "sampleId"; "IN"])
         cols.2;
  ts ← expect [TLParen] ts;
  keys ← sep_list str_of ts;
  if decide (keys.2 = [TRParen]) then
    if forallb is_ident cols.1 then Some (Select cols.1 keys.1) else None
  else None.

Definition or_else {A} (x y : option A) : option A :=
  match x with Some _ => x | None => y end.

Definition parse (ts : list token) : option statement :=
  or_else (parse_create ts)
  (or_else (parse_alter ts)
  (or_else (parse_upsert_feature ts)
  (or_else (parse_upsert_row ts) (parse_select ts)))).

(** The statement a text stands for, if it is one the client can emit. *)
Definition read_statement (sql : string) : option statement :=
  lex sql ≫= parse.

(** ** A reference row store

    Modelled from the spec: the SQL engine behind the cursor is not part of
    the client.  This store follows what the spec says of it: one row per
    sample keyed by [sampleId], one decimal column per feature; adding a
    column that exists is an error (SchemaConflict); a statement naming a
    column that does not exist is an error (UnknownColumn); an upsert sets
    the named columns of the row and leaves its other columns as they were;
    every statement takes effect at once (autocommit); the two base
    relations exist, so that creating them again is an error. *)

(** Reading a decimal literal into a stored value. *)
Class Read (V : Type) := read : string → option V.

Record table (V : Type) := {
  columns : gset string;
  rows : gmap string (gmap string V);
  catalog : gmap string (option string);
  pending : option (list (list (cell V)))
}.
Arguments columns {V} t.
Arguments rows {V} t.
Arguments catalog {V} t.
Arguments pending {V} t.

Section Store.
Context {V : Type} `{Read V}.

Definition has_column (t : table V) (x : string) : bool :=
  bool_decide (x = "sampleId" ∨ x ∈ columns t).

Definition cell_of (key : string) (r : gmap string V) (col : string)
    : cell V :=
  if decide (col = "sampleId") then Text key
  else match r !! col with
       | Some v => Num v
       | None => Null
       end.

Definition select_rows (t : table V) (cols keys : list string)
    : list (list (cell V)) :=
  (λ kr, cell_of kr.1 kr.2 <$> cols)
    <$> filter (λ kr, kr.1 ∈ keys) (map_to_list (rows t)).

Definition failed (msg : string) (t : table V) : option exn * table V :=
  (Some (DatabaseError msg), t).

Definition exec_statement (s : statement) (t : table V)
    : option exn * table V :=
  match s with
  | CreateExpressions | CreateFeatures => failed "table already exists" t
  | AlterAdd cols =>
      if bool_decide (NoDup cols) && forallb (λ x, negb (has_column t x)) cols
      then (None, {| columns := list_to_set cols ∪ columns t;
                     rows := rows t; catalog := catalog t;
                     pending := pending t |})
      else failed "SchemaConflict" t
  | UpsertFeature x name =>
      let name' := match name with
                   | Some n => Some n
                   | None => default None (catalog t !! x)
                   end in
      (None, {| columns := columns t; rows := rows t;
                catalog := <[x := name']> (catalog t);
                pending := pending t |})
  | UpsertRow cols key vals =>
      match mapM read vals with
      | Some vs =>
          if bool_decide (length cols = length vs) then
            if forallb (λ x, bool_decide (x ∈ columns t)) cols then
              let old := default ∅ (rows t !! key) in
              let new := list_to_map (zip cols vs) ∪ old in
              (None, {| columns := columns t;
                        rows := <[key := new]> (rows t);
                        catalog := catalog t; pending := pending t |})
            else failed "UnknownColumn" t
          else failed "column and value counts differ" t
      | None => failed "value out of range" t
      end
  | Select cols keys =>
      if forallb (has_column t) cols then
        (None, {| columns := columns t; rows := rows t;
                  catalog := catalog t;
                  pending := Some (select_rows t cols keys) |})
      else failed "UnknownColumn" t
  end.

Definition store_run (sql : string) (t : table V) : option exn * table V :=
  match read_statement sql with
  | Some s => exec_statement s t
  | None => failed "syntax error" t
  end.

Definition store_fetch (t : table V)
    : result (list (list (cell V))) * table V :=
  match pending t with
  | Some rs => (Ok rs, {| columns := columns t; rows := rows t;
                          catalog := catalog t; pending := None |})
  | None => (Raise (DatabaseError "no result set"), t)
  end.

Definition reference_store : Backend V :=
  {| db := table V; run := store_run; fetch := store_fetch |}.

(** The store right after initialization: no feature, no sample. *)
Definition empty_table : table V :=
  {| columns := ∅; rows := ∅; catalog := ∅; pending := None |}.

End Store.

(** ** Integer expression values *)

Global Instance Z_str : Str Z := λ z, NilZero.string_of_int (Z.to_int z).

(** [DECIMAL(10, 6)] leaves four digits before the point. *)
Global Instance Z_read : Read Z := λ s,
  match NilZero.int_of_string s with
  | Some d =>
      let z := Z.of_int d in
      if bool_decide (-10000 < z < 10000)%Z then Some z else None
  | None => None
  end.

(** ** Sample backends *)

(** A backend that accepts every statement and has no rows. *)
Definition accept_all : Backend Z :=
  {| db := unit; run := λ _ d, (None, d); fetch := λ d, (Ok [], d) |}.

(** A backend that counts statements and rejects the one numbered [n]. *)
Definition fail_at (n : nat) : Backend Z :=
  {| db := nat;
     run := λ sql d,
       (if bool_decide (d = n) then Some (DatabaseError sql) else None, S d);
     fetch := λ d, (Ok [], d) |}.

(** A backend that rejects every statement. *)
Definition reject_all : Backend Z :=
  {| db := unit; run := λ sql d, (Some (DatabaseError sql), d);
     fetch := λ d, (Raise (DatabaseError "no result set"), d) |}.

(** A fresh cursor on a backend state. *)
Definition cursor_on {V} (B : Backend V) (d : db B) : cursor B :=
  {| store := d; issued := []; printed := [] |}.

(** ** Statement sequences

    The order in which an operation hands statements to the cursor is
    stated against a plain list of statements, run one after the other
    until one of them raises. *)

Definition run_script {V} (B : Backend V) (sqls : list string) : M B () :=
  for_each B sqls (execute B).

(** Catalog registration of a list of features, names omitted. *)
Definition register_sqls (featureIds : list string) : list string :=
  map (λ x, upsert_feature_sql x None) featureIds.

(** One row write per sample, every row with the same feature list. *)
Definition row_sqls `{Str V} (sampleIds featureIds : list string)
    (vectors : list (list V)) : list string :=
  zip_with (λ s v, upsert_sample_sql s featureIds v) sampleIds vectors.

Definition sample_plan `{Str V} (sampleId : string)
    (featureIds : list string) (values : list V) : list string :=
  alter_sql featureIds :: register_sqls featureIds
    ++ [upsert_sample_sql sampleId featureIds values].

Definition batch_plan `{Str V} (sampleIds featureIds : list string)
    (vectors : list (list V)) : list string :=
  alter_sql featureIds :: register_sqls featureIds
    ++ row_sqls sampleIds featureIds vectors.

(** The tokens of a comma-separated list of items. *)
Fixpoint sep_tokens (mk : string → token) (xs : list string) : list token :=
  match xs with
  | [] => []
  | [x] => [mk x]
  | x :: xs' => mk x :: TComma :: sep_tokens mk xs'
  end.

(** The tokens of a comma-separated list of column definitions. *)
Fixpoint col_tokens (xs : list string) : list token :=
  match xs with
  | [] => []
  | [x] => TWord x :: dtype_tokens
  | x :: xs' => TWord x :: dtype_tokens ++ TComma :: col_tokens xs'
  end.

(** Token groups separated by commas. *)
Fixpoint sep_tokens_of (groups : list (list token)) : list token :=
  match groups with
  | [] => []
  | [g] => g
  | g :: groups' => g ++ TComma :: sep_tokens_of groups'
  end.

(** A vector that the store can take for the given features: as many
    values as features, each printed as one word that reads back as it. *)
Definition storable `{Str V} `{Read V} (featureIds : list string)
    (values : list V) : Prop :=
  length featureIds = length values
  ∧ Forall (λ v, is_word (str v) = true ∧ read (str v) = Some v) values.

(** ** Listing keys *)

Section Listing.
Context {V : Type} (B : Backend V).

(** [[x[0] for x in cursor.fetchall()]]; [x[0]] of an empty row raises. *)
Definition _fetchall_keys : M B (list (cell V)) :=
  bind B (fetchall B) (λ fetched,
  match mapM head fetched with
  | Some keys => ret B keys
  | None => raise B IndexError
  end).

Definition list_features_sql (limit offset : Z) : string :=
  "SELECT * from Features " +:+
  "LIMIT " +:+ str limit +:+ " OFFSET " +:+ str offset.

Definition list_samples_sql (limit offset : Z) : string :=
  "SELECT sampleId from Expressions " +:+
  "LIMIT " +:+ str limit +:+ " OFFSET " +:+ str offset.

Definition list_features (limit offset : Z) : M B (list (cell V)) :=
  bind B (execute B (list_features_sql limit offset)) (λ _, _fetchall_keys).

Definition list_samples (limit offset : Z) : M B (list (cell V)) :=
  bind B (execute B (list_samples_sql limit offset)) (λ _, _fetchall_keys).

End Listing.

(** The catalog upserts of [_upsert_features], one per feature: with the
    names when a non-empty list of names is given, without otherwise. *)
Definition catalog_sqls (featureIds : list string)
    (featureNames : option (list string)) : list string :=
  if truthy_list featureNames then
    zip_with (λ x name, upsert_feature_sql x (Some name)) featureIds
      (default [] featureNames)
  else register_sqls featureIds.

(** The single-name argument that corresponds to an optional name. *)
Definition one_name (featureName : option string) : option (list string) :=
  (λ name, [name]) <$> featureName.

(** A backend that accepts every statement and serves the given rows. *)
Definition serving (fetched : list (list (cell Z))) : Backend Z :=
  {| db := unit; run := λ _ d, (None, d); fetch := λ d, (Ok fetched, d) |}.

(** * Properties *)

(** ** Loops and scripts *)

Section ScriptFacts.
Context {V : Type} `{Str V} (B : Backend V).

Lemma execute_issued sql (c : cursor B) :
  issued (execute B sql c).2 = issued c ++ [sql].
Proof. unfold execute. by destruct (run B sql (store c)) as [[e|] d]. Qed.

Lemma execute_printed sql (c : cursor B) :
  printed (execute B sql c).2 = printed c.
Proof. unfold execute. by destruct (run B sql (store c)) as [[e|] d]. Qed.

Lemma for_each_map {A A'} (f : A → A') xs (body : A' → M B ()) c :
  for_each B (map f xs) body c = for_each B xs (λ x, body (f x)) c.
Proof.
  revert c. induction xs as [|x xs IH]; intros c; [done|].
  simpl. unfold bind. destruct (body (f x) c) as [[[]|e] c1]; auto.
Qed.

Lemma for_each_app {A} xs ys (body : A → M B ()) c :
  for_each B (xs ++ ys) body c
  = bind B (for_each B xs body) (λ _, for_each B ys body) c.
Proof.
  revert c. induction xs as [|x xs IH]; intros c; [done|].
  simpl. unfold bind. destruct (body x c) as [[[]|e] c1]; [|done].
  by rewrite IH.
Qed.

Lemma run_script_app xs ys c :
  run_script B (xs ++ ys) c
  = bind B (run_script B xs) (λ _, run_script B ys) c.
Proof. apply for_each_app. Qed.

(** Whatever the backend does, the statements handed over are an initial
    part of the script. *)
Lemma run_script_prefix sqls c :
  ∃ n, issued (run_script B sqls c).2 = issued c ++ take n sqls.
Proof.
  revert c. induction sqls as [|sql sqls IH]; intros c.
  - exists 0. simpl. by rewrite app_nil_r.
  - unfold run_script. simpl. unfold bind.
    pose proof (execute_issued sql c) as Hi.
    destruct (execute B sql c) as [[[]|e] c1]; simpl in Hi.
    + destruct (IH c1) as [n Hn]. exists (S n).
      unfold run_script in Hn. rewrite Hn, Hi. simpl.
      by rewrite <- app_assoc.
    + exists 1. simpl. by rewrite take_0.
Qed.

(** A script that returns has handed over all of its statements. *)
Lemma run_script_ok sqls c :
  (run_script B sqls c).1 = Ok () →
  issued (run_script B sqls c).2 = issued c ++ sqls.
Proof.
  revert c. induction sqls as [|sql sqls IH]; intros c.
  - intros _. simpl. by rewrite app_nil_r.
  - unfold run_script. simpl. unfold bind.
    pose proof (execute_issued sql c) as Hi.
    destruct (execute B sql c) as [[[]|e] c1]; simpl in Hi; [|done].
    intros Hok. unfold run_script in IH. rewrite (IH c1 Hok), Hi.
    by rewrite <- app_assoc.
Qed.

(** On a backend that accepts a script's statements, the script returns. *)
Lemma run_script_accepting sqls c :
  (∀ sql d, (run B sql d).1 = None) →
  (run_script B sqls c).1 = Ok ().
Proof.
  intros Hacc. revert c. induction sqls as [|sql sqls IH]; intros c; [done|].
  unfold run_script. simpl. unfold bind, execute.
  specialize (Hacc sql (store c)).
  destruct (run B sql (store c)) as [[e|] d]; simpl in Hacc; [done|].
  apply IH.
Qed.

Lemma upsert_features_script featureIds c :
  _upsert_features B featureIds None c
  = run_script B (register_sqls featureIds) c.
Proof.
  unfold _upsert_features, run_script, register_sqls. simpl.
  by rewrite for_each_map.
Qed.

Lemma upsert_sample_script sampleId featureIds (values : list V) c :
  upsert_sample B sampleId featureIds values true c
  = run_script B (sample_plan sampleId featureIds values) c.
Proof.
  unfold sample_plan.
  change (alter_sql featureIds :: ?l) with ([alter_sql featureIds] ++ l).
  rewrite !run_script_app. unfold upsert_sample, _alter_expressions_table.
  unfold bind. unfold run_script at 1. simpl. unfold bind.
  destruct (execute B (alter_sql featureIds) c) as [[[]|e] c1]; [|done].
  unfold ret. rewrite upsert_features_script, run_script_app. unfold bind.
  destruct (run_script B (register_sqls featureIds) c1) as [[[]|e] c2];
    [|done].
  unfold run_script, _upsert_sample. simpl. unfold bind, ret.
  by destruct (execute B _ c2) as [[[]|e] c3].
Qed.

End ScriptFacts.

(** ** Batch upserts as scripts *)

Section BatchFacts.
Context {V : Type} `{Str V} (B : Backend V).

(** What the loop of [upsert_samples] does from index [k] on. *)
Lemma upsert_samples_loop featureIds (vectors : list (list V)) sampleIds k c :
  for_each B (enumerate_from k sampleIds)
    (λ p, match vectors !! p.1 with
          | Some v => _upsert_sample B p.2 featureIds v
          | None => raise B IndexError
          end) c
  = bind B (run_script B (row_sqls sampleIds featureIds (drop k vectors)))
      (λ _, if bool_decide (length sampleIds ≤ length (drop k vectors))%nat
            then ret B () else raise B IndexError) c.
Proof.
  revert k c. induction sampleIds as [|s sampleIds IH]; intros k c.
  - done.
  - simpl. destruct (vectors !! k) as [v|] eqn:Hk.
    + rewrite (drop_S _ _ _ Hk). unfold row_sqls, run_script. simpl.
      unfold bind, _upsert_sample.
      destruct (execute B _ c) as [[[]|e] c1]; [|done].
      rewrite IH. unfold bind, run_script, row_sqls.
      destruct (for_each B _ (execute B) c1) as [[[]|e] c2]; [|done].
      by rewrite (bool_decide_ext
                    (length sampleIds ≤ length (drop (S k) vectors))%nat
                    (S (length sampleIds)
                       ≤ S (length (drop (S k) vectors)))%nat)
        by lia.
    + apply lookup_ge_None in Hk. rewrite (drop_ge _ _ Hk).
      by unfold bind, raise, run_script, row_sqls.
Qed.

Lemma upsert_samples_script sampleIds featureIds (vectors : list (list V)) c :
  upsert_samples B sampleIds featureIds vectors c
  = bind B (run_script B (batch_plan sampleIds featureIds vectors))
      (λ _, if bool_decide (length sampleIds ≤ length vectors)%nat
            then ret B () else raise B IndexError) c.
Proof.
  unfold batch_plan.
  change (alter_sql featureIds :: ?l) with ([alter_sql featureIds] ++ l).
  unfold upsert_samples, _alter_expressions_table, bind.
  rewrite !run_script_app. unfold bind. unfold run_script at 1. simpl.
  unfold bind.
  destruct (execute B (alter_sql featureIds) c) as [[[]|e] c1]; [|done].
  unfold ret. rewrite upsert_features_script, run_script_app. unfold bind.
  destruct (run_script B (register_sqls featureIds) c1) as [[[]|e] c2];
    [|done].
  unfold enumerate. rewrite upsert_samples_loop. by rewrite drop_0.
Qed.

(** A script stops at the first statement that raises, in the state the
    backend left. *)
Lemma run_script_stops pre sql post c c1 e c2 :
  run_script B pre c = (Ok (), c1) →
  execute B sql c1 = (Raise e, c2) →
  run_script B (pre ++ sql :: post) c = (Raise e, c2).
Proof.
  intros Hpre Hsql. rewrite run_script_app. unfold bind. rewrite Hpre.
  unfold run_script. simpl. unfold bind. by rewrite Hsql.
Qed.

End BatchFacts.

(** ** Catalog upserts *)



(** ** Arity of names *)

(** C2, as the code has it: when featureNames is provided, is not empty and
    its length differs from that of featureIds, [_upsert_features] raises
    before handing anything to the cursor, and [upsert_features] raises after
    the schema statement alone was handed over: no catalog upsert is issued.
    The exception is the arity one whenever the schema statement succeeds. *)
Theorem upsert_features_arity_mismatch {V : Type} (B : Backend V)
    (featureIds featureNames : list string) (c : cursor B) :
  featureNames ≠ [] →
  length featureIds ≠ length featureNames →
  let mismatch :=
    Exception "list of featureIds and featureNames did not match" in
  _upsert_features B featureIds (Some featureNames) c = (Raise mismatch, c)
  ∧ issued (upsert_features B featureIds (Some featureNames) c).2
    = issued c ++ [alter_sql featureIds]
  ∧ (∃ e, (upsert_features B featureIds (Some featureNames) c).1 = Raise e)
  ∧ ((run B (alter_sql featureIds) (store c)).1 = None →
     (upsert_features B featureIds (Some featureNames) c).1 = Raise mismatch).
Proof.
  intros Hne Hlen mismatch.
  assert (∀ c', _upsert_features B featureIds (Some featureNames) c'
                = (Raise mismatch, c')) as Hraise.
  { intros c'. unfold _upsert_features. simpl.
    rewrite bool_decide_false by done. rewrite andb_false_r.
    by destruct featureNames. }
  split; [apply Hraise|].
  unfold upsert_features, _alter_expressions_table, bind.
  pose proof (execute_issued B (alter_sql featureIds) c) as Hi.
  unfold execute in *.
  destruct (run B (alter_sql featureIds) (store c)) as [[e|] d]; simpl in *.
  - split_and!; [done | by exists e | done].
  - rewrite Hraise. simpl. split_and!; [done | by exists mismatch | done].
Qed.

Lemma upsert_features_arity_mismatch_witness :
  (upsert_features accept_all ["f1"; "f2"] (Some ["only one name"])
     (cursor_on accept_all ())).1
  = Raise (Exception "list of featureIds and featureNames did not match").
Proof.
  apply (upsert_features_arity_mismatch accept_all ["f1"; "f2"]
           ["only one name"] (cursor_on accept_all ()));
    [discriminate | simpl; lia | reflexivity].
Defined.

(** C2, as stated, fails: with two featureIds and one name the schema
    statement has been handed to the cursor when the call raises; and with
    a provided but empty list of names the call does not raise at all and
    writes to the catalog. *)
Lemma upsert_features_arity_mismatch_counterexample :
  issued (upsert_features accept_all ["f1"; "f2"] (Some ["only one name"])
            (cursor_on accept_all ())).2
  = ["ALTER TABLE Expressions ADD f1 DECIMAL(10, 6), f2 DECIMAL(10, 6)"]
  ∧ (upsert_features accept_all ["f1"] (Some []) (cursor_on accept_all ())).1
    = Ok ()
  ∧ issued (upsert_features accept_all ["f1"] (Some [])
              (cursor_on accept_all ())).2
    = ["ALTER TABLE Expressions ADD f1 DECIMAL(10, 6)";
       "UPSERT INTO Features(featureId) VALUES ('f1')"].
Proof. repeat split. Qed.

(** ** Order of statements in upserts *)

Section OrderFacts.
Context {V : Type} `{Str V} (B : Backend V).

(** The first statement of a script is always handed over. *)
Lemma run_script_prefix_cons sql sqls (c : cursor B) :
  ∃ n, issued (run_script B (sql :: sqls) c).2
       = issued c ++ sql :: take n sqls.
Proof.
  unfold run_script. simpl. unfold bind.
  pose proof (execute_issued B sql c) as Hi.
  destruct (execute B sql c) as [[[]|e] c1]; simpl in Hi.
  - destruct (run_script_prefix B sqls c1) as [n Hn]. exists n.
    unfold run_script in Hn. rewrite Hn, Hi. by rewrite <- app_assoc.
  - exists 0. by rewrite take_0.
Qed.

Lemma row_sqls_lookup sampleIds featureIds (vectors : list (list V)) k s v :
  sampleIds !! k = Some s → vectors !! k = Some v →
  row_sqls sampleIds featureIds vectors !! k
  = Some (upsert_sample_sql s featureIds v).
Proof.
  intros Hs Hv. unfold row_sqls. by rewrite lookup_zip_with, Hs, Hv.
Qed.

End OrderFacts.





(** A batch whose row upsert for index k raises, after the statements before
    it were accepted, ends there: the call raises that exception, the row
    upserts up to index k are what was handed to the cursor after the
    registrations, and nothing is handed over afterwards. *)
Lemma upsert_samples_stops_at_failure {V : Type} `{Str V} (B : Backend V)
    (sampleIds featureIds : list string) (vectors : list (list V))
    (c : cursor B) (k : nat) (s : string) (v : list V)
    (ck c' : cursor B) (e : exn) :
  let rows :=
    zip_with (λ s v, upsert_sample_sql s featureIds v) sampleIds vectors in
  let before :=
    alter_sql featureIds :: register_sqls featureIds ++ take k rows in
  sampleIds !! k = Some s →
  vectors !! k = Some v →
  run_script B before c = (Ok (), ck) →
  execute B (upsert_sample_sql s featureIds v) ck = (Raise e, c') →
  upsert_samples B sampleIds featureIds vectors c = (Raise e, c')
  ∧ issued c' = issued c ++ before ++ [upsert_sample_sql s featureIds v]
  ∧ store c' = (run B (upsert_sample_sql s featureIds v) (store ck)).2.
Proof.
  intros rows before Hs Hv Hbefore Hfail.
  assert (rows !! k = Some (upsert_sample_sql s featureIds v)) as Hk
    by by apply row_sqls_lookup.
  assert (batch_plan sampleIds featureIds vectors
          = before ++ upsert_sample_sql s featureIds v :: drop (S k) rows)
    as Hplan.
  { unfold batch_plan, before. fold rows. simpl. f_equal.
    rewrite <- app_assoc. f_equal.
    change (row_sqls sampleIds featureIds vectors) with rows.
    by rewrite (take_drop_middle rows k _ Hk). }
  split_and!.
  - rewrite upsert_samples_script, Hplan. unfold bind.
    by rewrite (run_script_stops B _ _ _ _ _ _ _ Hbefore Hfail).
  - pose proof (run_script_ok B before c) as Hok.
    rewrite Hbefore in Hok. simpl in Hok.
    pose proof (execute_issued B (upsert_sample_sql s featureIds v) ck) as Hi.
    rewrite Hfail in Hi. simpl in Hi. rewrite Hi, Hok by done.
    by rewrite <- app_assoc.
  - unfold execute in Hfail.
    destruct (run B (upsert_sample_sql s featureIds v) (store ck))
      as [[e'|] d]; by simplify_eq.
Qed.

(** ** Initialization *)

(** What [_safe_fn] leaves of an [execute]: the statement is handed over,
    its exception, if any, is printed, and nothing is raised. *)
Lemma safe_execute {V : Type} (B : Backend V) (sql : string) (c : cursor B) :
  _safe_fn B (execute B sql) c
  = (Ok (match (run B sql (store c)).1 with
         | None => Some ()
         | Some _ => None
         end),
     {| store := (run B sql (store c)).2;
        issued := issued c ++ [sql];
        printed := printed c ++ match (run B sql (store c)).1 with
                                | None => []
                                | Some e => [e]
                                end |}).
Proof.
  unfold _safe_fn, execute.
  destruct (run B sql (store c)) as [[e|] d]; simpl; [done|].
  by rewrite app_nil_r.
Qed.

(** C8, as the code has it: for every connection that hands out a cursor
    and every behaviour of the backend, [initialize] returns without
    raising; both creation statements are handed to the cursor, the one for
    the feature catalog after the one for the row store whether or not that
    one raised, and the exceptions they raise are printed. *)
Theorem initialize_never_raises {V : Type} (B : Backend V)
    (connection : Connection B) (c0 : cursor B) :
  new_cursor B connection = Ok c0 →
  let first := run B create_expressions_sql (store c0) in
  let second := run B create_features_sql first.2 in
  ∃ c, initialize B connection = Ok c
       ∧ issued c = issued c0 ++ [create_expressions_sql; create_features_sql]
       ∧ store c = second.2
       ∧ printed c = printed c0 ++ omap id [first.1; second.1].
Proof.
  intros Hcur first second. unfold initialize. rewrite Hcur.
  unfold _create_expressions_table, _create_features_table.
  rewrite !safe_execute. simpl. eexists. split; [done|]. simpl.
  split_and!; [by rewrite <- app_assoc | done |].
  fold first. fold second. rewrite <- app_assoc. f_equal.
  by destruct first.1, second.1.
Qed.

Lemma initialize_never_raises_witness :
  ∃ c, initialize reject_all {| new_cursor := Ok (cursor_on reject_all ()) |}
       = Ok c
       ∧ issued c = [] ++ [create_expressions_sql; create_features_sql]
       ∧ store c = ()
       ∧ printed c = [] ++ [DatabaseError create_expressions_sql;
                            DatabaseError create_features_sql].
Proof.
  exact (initialize_never_raises reject_all
           {| new_cursor := Ok (cursor_on reject_all ()) |}
           (cursor_on reject_all ()) eq_refl).
Defined.

(** C8, as stated, fails: the cursor is requested from the connection
    outside the guarded calls, so a connection that raises there (a closed
    one) makes [initialize] raise. *)
Lemma initialize_never_raises_counterexample :
  initialize accept_all
    {| new_cursor :=
         Raise (DatabaseError "the connection is already closed") |}
  = Raise (DatabaseError "the connection is already closed").
Proof. reflexivity. Qed.

(** ** Lexing generated text *)

Lemma letter_or_digit_other c :
  is_letter c || is_digit c = true → classify c = COther.
Proof.
  destruct c as [[] [] [] [] [] [] [] []]; vm_compute; congruence.
Qed.

Lemma all_chars_impl (p q : ascii → bool) s :
  (∀ c, p c = true → q c = true) → all_chars p s = true → all_chars q s = true.
Proof.
  intros Hpq. induction s as [|c s IH]; simpl; [done|].
  rewrite !andb_true_iff. intros [Hc Hs]. auto.
Qed.

Lemma is_ident_word w : is_ident w = true → is_word w = true.
Proof.
  destruct w as [|c w]; simpl; [done|].
  rewrite !andb_true_iff. intros [Hc Hw]. split.
  - apply bool_decide_eq_true, letter_or_digit_other. by rewrite Hc.
  - revert Hw. apply all_chars_impl. intros c' Hc'.
    by apply bool_decide_eq_true, letter_or_digit_other.
Qed.

Lemma is_ident_quote_free w : is_ident w = true → quote_free w = true.
Proof.
  intros Hw. apply is_ident_word in Hw. destruct w as [|c w]; [done|].
  revert Hw. unfold is_word, quote_free. apply all_chars_impl.
  intros c' Hc'. apply bool_decide_eq_true in Hc'. unfold classify in Hc'.
  destruct (Ascii.eqb c' " "); [done|].
  by destruct (Ascii.eqb c' "'").
Qed.

Lemma append_cons a (s t : string) : String a s +:+ t = String a (s +:+ t).
Proof. reflexivity. Qed.

Lemma append_nil (t : string) : "" +:+ t = t.
Proof. reflexivity. Qed.

Lemma append_assoc (s t u : string) : (s +:+ t) +:+ u = s +:+ t +:+ u.
Proof.
  induction s as [|a s IH]; [done|]. rewrite !append_cons. by f_equal.
Qed.

Lemma append_empty_r (s : string) : s +:+ "" = s.
Proof.
  induction s as [|a s IH]; [done|]. rewrite append_cons. by f_equal.
Qed.

Lemma snoc_app s c t : snoc s c +:+ t = s +:+ String c t.
Proof. unfold snoc. by rewrite append_assoc. Qed.

(** Inside a word, word characters are accumulated. *)
Lemma lex_go_in_word w acc rest :
  all_chars (λ c, bool_decide (classify c = COther)) w = true →
  lex_go (InWord acc) (w +:+ rest) = lex_go (InWord (acc +:+ w)) rest.
Proof.
  revert acc. induction w as [|c w IH]; intros acc; simpl.
  - by rewrite append_empty_r.
  - rewrite andb_true_iff, bool_decide_eq_true. intros [Hc Hw].
    rewrite Hc, IH by done. by rewrite snoc_app.
Qed.

Lemma lex_go_word w rest :
  is_word w = true → lex_go Idle (w +:+ rest) = lex_go (InWord w) rest.
Proof.
  destruct w as [|c w]; [done|]. simpl.
  rewrite andb_true_iff, bool_decide_eq_true. intros [Hc Hw].
  rewrite Hc. simpl. by rewrite lex_go_in_word.
Qed.

(** A word ends at the first character that is not a word character. *)
Lemma lex_go_word_end w c rest :
  classify c ≠ COther →
  lex_go (InWord w) (String c rest)
  = cons (TWord w) <$> lex_go Idle (String c rest).
Proof. simpl. by destruct (classify c). Qed.

(** Inside a literal, characters other than the quote are accumulated. *)
Lemma lex_go_in_str q acc rest :
  quote_free q = true →
  lex_go (InStr acc) (q +:+ rest) = lex_go (InStr (acc +:+ q)) rest.
Proof.
  revert acc. induction q as [|c q IH]; intros acc.
  - intros _. by rewrite append_nil, append_empty_r.
  - unfold quote_free. simpl all_chars.
    rewrite andb_true_iff, negb_true_iff. intros [Hc Hq].
    rewrite append_cons.
    assert (lex_go (InStr acc) (String c (q +:+ rest))
            = lex_go (InStr (snoc acc c)) (q +:+ rest)) as ->.
    { simpl. unfold classify. rewrite Hc.
      by repeat destruct (Ascii.eqb c _). }
    rewrite IH by done. by rewrite snoc_app.
Qed.

(** A quoted text followed by something other than a quote is one literal. *)
Lemma lex_go_quoted q c rest :
  quote_free q = true → classify c ≠ CQuote →
  lex_go Idle ("'" +:+ q +:+ "'" +:+ String c rest)
  = cons (TStr q) <$> lex_go Idle (String c rest).
Proof.
  intros Hq Hc.
  change (lex_go Idle ("'" +:+ q +:+ "'" +:+ String c rest))
    with (lex_go (InStr "") (q +:+ String "'" (String c rest))).
  rewrite lex_go_in_str by done. simpl. by destruct (classify c).
Qed.

Lemma join_cons (sep x y : string) (l : list string) :
  join sep (x :: y :: l) = x +:+ sep +:+ join sep (y :: l).
Proof. reflexivity. Qed.

Lemma fmap_app_cons (t : token) (pre : list token) (o : option (list token)) :
  cons t <$> (app pre <$> o) = app (t :: pre) <$> o.
Proof. by destruct o. Qed.

Lemma fmap_cons_app (t : token) (o : option (list token)) :
  cons t <$> o = app [t] <$> o.
Proof. by destruct o. Qed.

(** A comma-separated list of words, up to the character that ends it. *)
Lemma lex_join_words ws c rest :
  ws ≠ [] → Forall (λ w, is_word w = true) ws → classify c ≠ COther →
  lex_go Idle (join ", " ws +:+ String c rest)
  = app (sep_tokens TWord ws) <$> lex_go Idle (String c rest).
Proof.
  intros Hne Hws Hc. induction ws as [|w ws IH]; [done|].
  apply Forall_cons in Hws as [Hw Hws]. destruct ws as [|w2 ws].
  - change (join ", " [w]) with w.
    rewrite lex_go_word, lex_go_word_end by done. apply fmap_cons_app.
  - rewrite join_cons, !append_assoc, lex_go_word by done.
    rewrite !append_cons, append_nil, lex_go_word_end by done.
    change (lex_go Idle (String "," (String " " ?s)))
      with (cons TComma <$> lex_go Idle s).
    rewrite IH by done.
    change (sep_tokens TWord (w :: w2 :: ws))
      with (TWord w :: TComma :: sep_tokens TWord (w2 :: ws)).
    by destruct (lex_go Idle (String c rest)).
Qed.

(** A comma-separated list of quoted texts, up to the character after it. *)
Lemma lex_join_quoted ks c rest :
  ks ≠ [] → Forall (λ k, quote_free k = true) ks → classify c ≠ CQuote →
  lex_go Idle (join ", " (map (λ x, "'" +:+ x +:+ "'") ks) +:+ String c rest)
  = app (sep_tokens TStr ks) <$> lex_go Idle (String c rest).
Proof.
  intros Hne Hks Hc. induction ks as [|k ks IH]; [done|].
  apply Forall_cons in Hks as [Hk Hks]. destruct ks as [|k2 ks].
  - change (join ", " (map _ [k])) with ("'" +:+ k +:+ "'").
    rewrite !append_assoc, lex_go_quoted by done. apply fmap_cons_app.
  - change (map ?f (k :: k2 :: ks)) with (f k :: f k2 :: map f ks).
    rewrite join_cons. cbv beta. rewrite !append_assoc.
    change (", " +:+ ?s) with (String "," (String " " s)).
    rewrite lex_go_quoted by done.
    change (lex_go Idle (String "," (String " " ?s)))
      with (cons TComma <$> lex_go Idle s).
    change (("'" +:+ k2 +:+ "'") :: map _ ks)
      with (map (λ x, "'" +:+ x +:+ "'") (k2 :: ks)).
    rewrite IH by done.
    change (sep_tokens TStr (k :: k2 :: ks))
      with (TStr k :: TComma :: sep_tokens TStr (k2 :: ks)).
    by destruct (lex_go Idle (String c rest)).
Qed.

(** A comma-separated list of column definitions that ends the text. *)
Lemma lex_join_coldefs ws :
  ws ≠ [] → Forall (λ w, is_word w = true) ws →
  lex_go Idle (join ", " (map (λ x, x +:+ " " +:+ DTYPE) ws))
  = Some (col_tokens ws).
Proof.
  intros Hne Hws. induction ws as [|w ws IH]; [done|].
  apply Forall_cons in Hws as [Hw Hws]. destruct ws as [|w2 ws].
  - change (join ", " (map _ [w])) with (w +:+ " " +:+ DTYPE).
    by rewrite lex_go_word.
  - change (map ?f (w :: w2 :: ws)) with (f w :: f w2 :: map f ws).
    rewrite join_cons. cbv beta. rewrite !append_assoc, lex_go_word by done.
    change ((w2 +:+ " " +:+ DTYPE) :: map _ ws)
      with (map (λ x, x +:+ " " +:+ DTYPE) (w2 :: ws)).
    set (others := join ", " (map _ (w2 :: ws))) in *.
    unfold DTYPE. rewrite !append_cons, !append_nil.
    simpl lex_go. rewrite IH by done. reflexivity.
Qed.

(** ** Parsing the tokens of generated text *)

Lemma sep_list_comma get t x ts :
  get t = Some x →
  sep_list get (t :: TComma :: ts)
  = (λ p, (x :: p.1, p.2)) <$> sep_list get ts.
Proof. intros Hget. simpl. by rewrite Hget. Qed.

Lemma coldefs_comma x ts :
  coldefs (TWord x :: dtype_tokens ++ TComma :: ts)
  = (λ p, (x :: p.1, p.2)) <$> coldefs ts.
Proof. reflexivity. Qed.

Lemma sep_list_tokens get mk xs r :
  (∀ x, get (mk x) = Some x) → xs ≠ [] → head r ≠ Some TComma →
  sep_list get (sep_tokens mk xs ++ r) = Some (xs, r).
Proof.
  intros Hget Hne Hr. induction xs as [|x xs IH]; [done|].
  destruct xs as [|x2 xs].
  - simpl. rewrite Hget. by destruct r as [|[] r].
  - change (sep_tokens mk (x :: x2 :: xs) ++ r)
      with (mk x :: TComma :: (sep_tokens mk (x2 :: xs) ++ r)).
    by rewrite (sep_list_comma _ _ x), IH.
Qed.

Lemma coldefs_tokens xs :
  xs ≠ [] → coldefs (col_tokens xs) = Some (xs, []).
Proof.
  intros Hne. induction xs as [|x xs IH]; [done|].
  destruct xs as [|x2 xs]; [done|].
  change (col_tokens (x :: x2 :: xs))
    with (TWord x :: dtype_tokens ++ TComma :: col_tokens (x2 :: xs)).
  by rewrite coldefs_comma, IH.
Qed.

Lemma forallb_Forall {A} (p : A → bool) xs :
  Forall (λ x, p x = true) xs → forallb p xs = true.
Proof. induction 1 as [|x xs Hx _ IH]; simpl; [done | by rewrite Hx]. Qed.

Lemma forallb_ident xs :
  Forall (λ x, is_ident x = true) xs → forallb is_ident xs = true.
Proof. apply forallb_Forall. Qed.

Lemma Forall_ident_word xs :
  Forall (λ x, is_ident x = true) xs → Forall (λ x, is_word x = true) xs.
Proof. intros Hxs. eapply Forall_impl; [done|]. apply is_ident_word. Qed.

(** The query of [matrix_sql], read back. *)
Lemma read_matrix_sql sampleIds featureIds :
  featureIds ≠ [] → Forall (λ x, is_ident x = true) featureIds →
  sampleIds ≠ [] → Forall (λ k, quote_free k = true) sampleIds →
  read_statement (matrix_sql sampleIds featureIds)
  = Some (Select ("sampleId" :: featureIds) sampleIds).
Proof.
  intros Hf Hfi Hs Hsq. unfold read_statement, lex, matrix_sql. cbv zeta.
  rewrite ?append_assoc, !append_cons, !append_nil. simpl lex_go.
  rewrite lex_join_words by auto using Forall_ident_word. simpl lex_go.
  rewrite lex_join_quoted by done. simpl lex_go. unfold snoc.
  rewrite !append_cons, !append_nil. simpl.
  unfold parse, parse_create, parse_alter, parse_upsert_feature,
    parse_upsert_row, parse_select. simpl.
  rewrite (sep_list_tokens word_of TWord) by done. simpl.
  rewrite (sep_list_tokens str_of TStr) by done. simpl.
  by rewrite forallb_ident.
Qed.

(** The schema statement, read back. *)
Lemma read_alter_sql featureIds :
  featureIds ≠ [] → Forall (λ x, is_ident x = true) featureIds →
  read_statement (alter_sql featureIds) = Some (AlterAdd featureIds).
Proof.
  intros Hf Hfi. unfold read_statement, lex, alter_sql, _feature_dtype_list.
  set (defs := join ", " _).
  rewrite !append_cons, !append_nil. simpl lex_go. subst defs.
  rewrite lex_join_coldefs by auto using Forall_ident_word.
  unfold snoc. rewrite !append_cons, !append_nil. simpl.
  unfold parse, parse_create, parse_alter. simpl.
  rewrite coldefs_tokens by done. simpl. by rewrite forallb_ident.
Qed.

(** The catalog upsert without a name, read back. *)
Lemma read_upsert_feature_sql featureId :
  quote_free featureId = true →
  read_statement (upsert_feature_sql featureId None)
  = Some (UpsertFeature featureId None).
Proof.
  intros Hq. unfold read_statement, lex, upsert_feature_sql. simpl truthy_str.
  cbv iota. rewrite !append_cons, !append_nil. simpl lex_go.
  rewrite lex_go_in_str by done. simpl lex_go.
  unfold snoc. rewrite !append_cons, !append_nil. reflexivity.
Qed.

(** The row upsert, read back. *)
Lemma read_upsert_sample_sql `{Str V} sampleId featureIds (values : list V) :
  featureIds ≠ [] → Forall (λ x, is_ident x = true) featureIds →
  quote_free sampleId = true →
  values ≠ [] → Forall (λ v, is_word (str v) = true) values →
  read_statement (upsert_sample_sql sampleId featureIds values)
  = Some (UpsertRow featureIds sampleId (map str values)).
Proof.
  intros Hf Hfi Hq Hv Hvw.
  unfold read_statement, lex, upsert_sample_sql.
  change (map (λ x, str x) values) with (map str values).
  rewrite !append_cons, !append_nil. simpl lex_go.
  rewrite lex_join_words by auto using Forall_ident_word. simpl lex_go.
  rewrite lex_go_in_str by done. simpl lex_go.
  rewrite lex_join_words; [|by destruct values|by apply Forall_fmap|done].
  simpl lex_go. unfold snoc. rewrite !append_cons, !append_nil. simpl.
  unfold parse, parse_create, parse_alter, parse_upsert_feature,
    parse_upsert_row. simpl.
  rewrite (sep_list_tokens word_of TWord) by done. simpl.
  rewrite (sep_list_tokens word_of TWord); [|done|by destruct values|done].
  simpl. by rewrite forallb_ident.
Qed.

(** ** The projection query *)

(** Without features the select list ends in a comma, whatever the samples. *)
Lemma read_matrix_sql_no_feature sampleIds :
  read_statement (matrix_sql sampleIds []) = None.
Proof.
  unfold read_statement, lex, matrix_sql. cbv zeta.
  set (samples := join ", " (map _ sampleIds)).
  change (join ", " []) with "".
  rewrite !append_cons, !append_nil. simpl lex_go.
  destruct (lex_go Idle (samples +:+ ")")) as [ts|]; [|done].
  unfold snoc. rewrite !append_cons, !append_nil. reflexivity.
Qed.

(** Without samples the value list of IN is empty. *)
Lemma read_matrix_sql_no_sample featureIds :
  featureIds ≠ [] → Forall (λ x, is_ident x = true) featureIds →
  read_statement (matrix_sql [] featureIds) = None.
Proof.
  intros Hf Hfi. unfold read_statement, lex, matrix_sql. cbv zeta.
  change (join ", " (map _ [])) with "".
  rewrite !append_cons, !append_nil. simpl lex_go.
  rewrite lex_join_words by auto using Forall_ident_word. simpl lex_go.
  unfold snoc. rewrite !append_cons, !append_nil. simpl.
  unfold parse, parse_create, parse_alter, parse_upsert_feature,
    parse_upsert_row, parse_select. simpl.
  by rewrite (sep_list_tokens word_of TWord).
Qed.

(** C3, as the code has it: for every non-empty list of featureIds that are
    column names and every non-empty list of sampleIds without a single
    quote, the text of [matrix_sql] reads as the query that selects the
    columns sampleId, featureIds[0], featureIds[1], ... in that order from
    the rows whose sampleId is one of the given sampleIds. *)
Theorem matrix_sql_projection (sampleIds featureIds : list string) :
  featureIds ≠ [] → Forall (λ x, is_ident x = true) featureIds →
  sampleIds ≠ [] → Forall (λ k, quote_free k = true) sampleIds →
  ∃ cols keys,
    read_statement (matrix_sql sampleIds featureIds) = Some (Select cols keys)
    ∧ cols = "sampleId" :: featureIds
    ∧ keys = sampleIds.
Proof.
  intros Hf Hfi Hs Hsq. exists ("sampleId" :: featureIds), sampleIds.
  by rewrite read_matrix_sql.
Qed.

Lemma matrix_sql_projection_witness :
  ∃ cols keys,
    read_statement (matrix_sql ["s1"; "s2"] ["f1"; "f2"])
    = Some (Select cols keys)
    ∧ cols = ["sampleId"; "f1"; "f2"]
    ∧ keys = ["s1"; "s2"].
Proof.
  apply (matrix_sql_projection ["s1"; "s2"] ["f1"; "f2"]);
    [discriminate | repeat constructor | discriminate | repeat constructor].
Defined.

(** C3, as stated, fails: with no feature, or no sample, the text is not a
    query; a sampleId with a quote in it makes the query restrict the rows
    to other sampleIds than the given one, and a featureId with a comma in
    it makes the query select other columns than the given one. *)
Lemma matrix_sql_projection_counterexample :
  read_statement (matrix_sql ["s1"] []) = None
  ∧ read_statement (matrix_sql [] ["f1"]) = None
  ∧ read_statement (matrix_sql ["a', 'b"] ["f1"])
    = Some (Select ["sampleId"; "f1"] ["a"; "b"])
  ∧ read_statement (matrix_sql ["s1"] ["f1, f2"])
    = Some (Select ["sampleId"; "f1"; "f2"] ["s1"]).
Proof. repeat split; vm_compute; reflexivity. Qed.

(** C4, as the code has it: [matrix_sql] returns a text for every input,
    empty lists included.  With featureIds empty the select list of that
    text ends in a comma; with sampleIds empty (and column names for
    featureIds) its IN list has no value; neither text is a query. *)
Theorem matrix_sql_empty_lists :
  (∀ sampleIds,
     matrix_sql sampleIds []
     = "SELECT sampleId,  from Expressions WHERE sampleId IN(" +:+
       join ", " (map (λ x, "'" +:+ x +:+ "'") sampleIds) +:+ ")"
     ∧ read_statement (matrix_sql sampleIds []) = None)
  ∧ (∀ featureIds,
       featureIds ≠ [] → Forall (λ x, is_ident x = true) featureIds →
       matrix_sql [] featureIds
       = "SELECT sampleId, " +:+ join ", " featureIds +:+
         " from Expressions WHERE sampleId IN()"
       ∧ read_statement (matrix_sql [] featureIds) = None).
Proof.
  split.
  - intros sampleIds. split; [done | apply read_matrix_sql_no_feature].
  - intros featureIds Hf Hfi. split; [done|].
    by apply read_matrix_sql_no_sample.
Qed.

Lemma matrix_sql_empty_lists_witness :
  matrix_sql [] ["f1"]
  = "SELECT sampleId, " +:+ join ", " ["f1"] +:+
    " from Expressions WHERE sampleId IN()"
  ∧ read_statement (matrix_sql [] ["f1"]) = None.
Proof.
  apply (proj2 matrix_sql_empty_lists ["f1"]);
    [discriminate | repeat constructor].
Defined.

(** C4, as stated, fails: the text built for an empty featureIds list, and
    the one built for an empty sampleIds list, are not well-formed. *)
Lemma matrix_sql_empty_lists_counterexample :
  matrix_sql ["s1"] []
  = "SELECT sampleId,  from Expressions WHERE sampleId IN('s1')"
  ∧ read_statement (matrix_sql ["s1"] []) = None
  ∧ matrix_sql [] ["f1"]
    = "SELECT sampleId, f1 from Expressions WHERE sampleId IN()"
  ∧ read_statement (matrix_sql [] ["f1"]) = None.
Proof. repeat split; vm_compute; reflexivity. Qed.

(** ** The client on the reference store *)

Section StoreFacts.
Context {V : Type} `{Str V} `{Read V}.

Lemma has_column_false (t : table V) x :
  has_column t x = false ↔ x ≠ "sampleId" ∧ x ∉ columns t.
Proof.
  unfold has_column. rewrite bool_decide_eq_false. tauto.
Qed.

(** Adding new, distinct columns succeeds and only adds them. *)
Lemma store_alter (t : table V) featureIds :
  featureIds ≠ [] → Forall (λ x, is_ident x = true) featureIds →
  NoDup featureIds → Forall (λ x, has_column t x = false) featureIds →
  run (reference_store (V := V)) (alter_sql featureIds) t
  = (None, {| columns := list_to_set featureIds ∪ columns t;
              rows := rows t; catalog := catalog t;
              pending := pending t |}).
Proof.
  intros Hne Hid Hnd Hnew. simpl. unfold store_run.
  rewrite read_alter_sql by done. simpl.
  rewrite bool_decide_true by done.
  rewrite forallb_Forall; [done|].
  eapply Forall_impl; [done|]. by intros x ->.
Qed.

(** Registering features touches the catalog only. *)
Lemma store_register_one x (c : cursor (reference_store (V := V))) :
  quote_free x = true →
  execute (reference_store (V := V)) (upsert_feature_sql x None) c
  = (Ok (),
     {| store := {| columns := columns (store c); rows := rows (store c);
                    catalog := <[x := default None (catalog (store c) !! x)]>
                                 (catalog (store c));
                    pending := pending (store c) |}
                 : db (reference_store (V := V));
        issued := issued c ++ [upsert_feature_sql x None];
        printed := printed c |}).
Proof.
  intros Hx. unfold execute. simpl. unfold store_run.
  by rewrite read_upsert_feature_sql.
Qed.

Lemma store_register featureIds (c : cursor (reference_store (V := V))) :
  Forall (λ x, quote_free x = true) featureIds →
  ∃ c', run_script (reference_store (V := V)) (register_sqls featureIds) c
        = (Ok (), c')
        ∧ columns (store c') = columns (store c)
        ∧ rows (store c') = rows (store c)
        ∧ pending (store c') = pending (store c).
Proof.
  intros Hq. revert c. induction Hq as [|x xs Hx _ IH]; intros c.
  - by exists c.
  - change (register_sqls (x :: xs))
      with (upsert_feature_sql x None :: register_sqls xs).
    change (run_script (reference_store (V := V)) (?sql :: ?sqls) c)
      with (bind (reference_store (V := V))
              (execute (reference_store (V := V)) sql)
              (λ _, run_script (reference_store (V := V)) sqls) c).
    unfold bind. rewrite store_register_one by done.
    match goal with |- context [run_script (reference_store (V := V)) _ ?c1] =>
      destruct (IH c1) as (c' & Hrun & Hc & Hr & Hp) end.
    exists c'. by rewrite Hrun.
Qed.

Lemma mapM_read_str (values : list V) :
  Forall (λ v, read (str v) = Some v) values →
  mapM read (map str values) = Some values.
Proof. apply mapM_fmap_Forall_Some. Qed.

(** Upserting a row of existing columns sets these columns of the row. *)
Lemma store_upsert_row (t : table V) sampleId featureIds values :
  featureIds ≠ [] → Forall (λ x, is_ident x = true) featureIds →
  quote_free sampleId = true →
  length featureIds = length values →
  Forall (λ v, is_word (str v) = true ∧ read (str v) = Some v) values →
  Forall (λ x, x ∈ columns t) featureIds →
  run (reference_store (V := V))
    (upsert_sample_sql sampleId featureIds values) t
  = (None, {| columns := columns t;
              rows := <[sampleId := list_to_map (zip featureIds values)
                                      ∪ default ∅ (rows t !! sampleId)]>
                        (rows t);
              catalog := catalog t; pending := pending t |}).
Proof.
  intros Hne Hid Hq Hlen Hvals Hcols. simpl. unfold store_run.
  assert (values ≠ []) as Hv by (destruct values, featureIds; done).
  rewrite read_upsert_sample_sql;
    [|done..|by eapply Forall_impl; [done|]; intros ? []]. simpl.
  rewrite mapM_read_str by (by eapply Forall_impl; [done|]; intros ? []).
  rewrite bool_decide_true by done.
  rewrite forallb_Forall; [done|].
  eapply Forall_impl; [done|]. intros x Hx. by apply bool_decide_eq_true.
Qed.

(** A projection of existing columns leaves the selected rows to fetch. *)
Lemma store_select (t : table V) sampleIds featureIds :
  featureIds ≠ [] → Forall (λ x, is_ident x = true) featureIds →
  sampleIds ≠ [] → Forall (λ k, quote_free k = true) sampleIds →
  Forall (λ x, has_column t x = true) featureIds →
  run (reference_store (V := V)) (matrix_sql sampleIds featureIds) t
  = (None, {| columns := columns t; rows := rows t; catalog := catalog t;
              pending :=
                Some (select_rows t ("sampleId" :: featureIds) sampleIds) |}).
Proof.
  intros Hne Hid Hs Hsq Hcols. simpl. unfold store_run.
  rewrite read_matrix_sql by done. simpl.
  by rewrite forallb_Forall.
Qed.

Lemma filter_key {A} (l : list (string * A)) k r :
  NoDup (l.*1) → (k, r) ∈ l →
  filter (λ kr, kr.1 ∈ [k]) l = [(k, r)].
Proof.
  induction l as [|[k' r'] l IH]; simpl; intros Hnd Hin.
  - by apply elem_of_nil in Hin.
  - apply NoDup_cons in Hnd as [Hk' Hnd].
    apply elem_of_cons in Hin as [[= <- <-]|Hin].
    + rewrite filter_cons_True by by apply list_elem_of_singleton.
      f_equal. clear IH Hnd. induction l as [|[k2 r2] l IH]; [done|].
      simpl in Hk'. apply not_elem_of_cons in Hk' as [Hne Hk'].
      rewrite filter_cons_False by by rewrite list_elem_of_singleton.
      by apply IH.
    + assert (k' ≠ k) as Hne.
      { intros ->. apply Hk'. apply list_elem_of_fmap. by exists (k, r). }
      rewrite filter_cons_False by by rewrite list_elem_of_singleton.
      by apply IH.
Qed.

(** Selecting one stored sample gives its row and no other. *)
Lemma select_one_row (t : table V) cols sampleId r :
  rows t !! sampleId = Some r →
  select_rows t cols [sampleId] = [cell_of sampleId r <$> cols].
Proof.
  intros Hr. unfold select_rows.
  rewrite (filter_key _ sampleId r); [done | |].
  - apply NoDup_fst_map_to_list.
  - by apply elem_of_map_to_list.
Qed.

(** The cells of the columns just written are the values written. *)
Lemma cells_of_row sampleId featureIds (values : list V) old :
  NoDup featureIds → length featureIds = length values →
  Forall (λ x, x ≠ "sampleId") featureIds →
  cell_of sampleId (list_to_map (zip featureIds values) ∪ old) <$> featureIds
  = Num <$> values.
Proof.
  intros Hnd Hlen Hkey. apply list_eq. intros i.
  rewrite !list_lookup_fmap.
  destruct (featureIds !! i) as [x|] eqn:Hx.
  - destruct (lookup_lt_is_Some_2 values i) as [v Hv].
    { rewrite <- Hlen. by eapply lookup_lt_Some. }
    rewrite Hv. simpl. f_equal. unfold cell_of.
    rewrite decide_False
      by (by eapply Forall_forall in Hkey; [|by eapply list_elem_of_lookup_2]).
    erewrite lookup_union_Some_l; [done|].
    apply elem_of_list_to_map_1.
    + rewrite fst_zip by lia. done.
    + apply list_elem_of_lookup. exists i.
      by rewrite lookup_zip_with, Hx, Hv.
  - apply lookup_ge_None in Hx. rewrite Hlen in Hx.
    apply lookup_ge_None in Hx. by rewrite Hx.
Qed.

End StoreFacts.

(** ** Writing a sample and reading it back *)

Section RoundTrip.
Context {V : Type} `{Str V} `{Read V}.

(** The row upsert followed by the projection of the same sample. *)
Lemma row_then_matrix (c : cursor (reference_store (V := V)))
    sampleId featureIds (values : list V) :
  length featureIds = length values →
  featureIds ≠ [] → NoDup featureIds →
  Forall (λ x, is_ident x = true) featureIds →
  Forall (λ x, x ≠ "sampleId" ∧ x ∈ columns (store c)) featureIds →
  quote_free sampleId = true →
  Forall (λ v, is_word (str v) = true ∧ read (str v) = Some v) values →
  (bind (reference_store (V := V))
     (_upsert_sample (reference_store (V := V)) sampleId featureIds values)
     (λ _, matrix (reference_store (V := V)) [sampleId] featureIds) c).1
  = Ok [Text sampleId :: map Num values].
Proof.
  intros Hlen Hne Hnd Hid Hcols Hq Hvals.
  unfold bind, _upsert_sample, matrix, bind, execute, fetchall.
  rewrite store_upsert_row;
    [|done..|by eapply Forall_impl; [done|]; intros ? []].
  cbv beta iota zeta. unfold store at 1.
  rewrite store_select; [|done|done|done|by repeat constructor|].
  - cbv beta iota zeta. simpl. f_equal.
    erewrite select_one_row by apply lookup_insert_eq.
    change (cell_of sampleId ?r <$> "sampleId" :: featureIds)
      with (Text sampleId :: (cell_of sampleId r <$> featureIds)).
    rewrite cells_of_row; [done..|].
    by eapply Forall_impl; [done|]; intros ? [].
  - eapply Forall_impl; [done|]. intros x [_ Hx].
    unfold has_column. apply bool_decide_eq_true. by right.
Qed.

End RoundTrip.

(** C1, as the code has it, on the reference row store: for every sampleId
    without a single quote, every non-empty list of distinct featureIds that
    are column names other than sampleId, and every list of as many values
    that the store reads back from their text, when the featureIds are not
    yet columns and add_features is true, or are columns already and
    add_features is false, [upsert_sample] followed by
    [matrix([sampleId], featureIds)] returns exactly one row: sampleId
    followed by the values in the order of featureIds. *)
Theorem upsert_sample_then_matrix {V : Type} `{Str V} `{Read V}
    (c : cursor (@reference_store V _)) (sampleId : string)
    (featureIds : list string) (values : list V) (add_features : bool) :
  length featureIds = length values →
  featureIds ≠ [] → NoDup featureIds →
  Forall (λ x, is_ident x = true) featureIds →
  Forall (λ x, x ≠ "sampleId"
               ∧ (x ∈ columns (store c) ↔ add_features = false)) featureIds →
  quote_free sampleId = true →
  Forall (λ v, is_word (str v) = true ∧ read (str v) = Some v) values →
  (bind reference_store
     (upsert_sample reference_store sampleId featureIds values add_features)
     (λ _, matrix reference_store [sampleId] featureIds) c).1
  = Ok [Text sampleId :: map Num values].
Proof.
  intros Hlen Hne Hnd Hid Hcols Hq Hvals. destruct add_features.
  - pose proof (store_alter (store c) featureIds Hne Hid Hnd) as Halter.
    destruct (store_register featureIds
                {| store := {| columns := list_to_set featureIds
                                          ∪ columns (store c);
                               rows := rows (store c);
                               catalog := catalog (store c);
                               pending := pending (store c) |}
                            : db reference_store;
                   issued := issued c ++ [alter_sql featureIds];
                   printed := printed c |})
      as (c2 & Hreg & Hc2 & _ & _).
    { eapply Forall_impl; [exact Hid|]. apply is_ident_quote_free. }
    pose proof (row_then_matrix c2 sampleId featureIds values) as Hrow.
    unfold bind in *. unfold upsert_sample, _alter_expressions_table, bind.
    unfold execute at 1. rewrite Halter.
    + rewrite upsert_features_script, Hreg. apply Hrow; try done.
      apply Forall_forall. intros x Hin. split.
      * by eapply Forall_forall in Hcols as [? _].
      * rewrite Hc2. simpl. by apply elem_of_union_l, elem_of_list_to_set.
    + eapply Forall_impl; [exact Hcols|]. intros x [Hx Hnew].
      apply has_column_false. split; [done|]. intros Hin.
      by apply Hnew in Hin.
  - pose proof (row_then_matrix c sampleId featureIds values) as Hrow.
    unfold bind in *. unfold upsert_sample, bind, ret. apply Hrow; try done.
    eapply Forall_impl; [exact Hcols|]. intros x [Hx Hcol]. split; [done|].
    by apply Hcol.
Qed.

Lemma upsert_sample_then_matrix_witness :
  (bind reference_store
     (upsert_sample reference_store "s1" ["f1"; "f2"] [3; -7]%Z true)
     (λ _, matrix reference_store ["s1"] ["f1"; "f2"])
     (cursor_on reference_store empty_table)).1
  = Ok [[Text "s1"; Num 3%Z; Num (-7)%Z]].
Proof.
  apply (upsert_sample_then_matrix (cursor_on reference_store empty_table)
           "s1" ["f1"; "f2"] [3; -7]%Z true).
  - reflexivity.
  - discriminate.
  - apply (bool_decide_unpack _). vm_compute. reflexivity.
  - repeat constructor.
  - repeat constructor; try discriminate; simpl;
      intros Hin; by apply elem_of_empty in Hin.
  - reflexivity.
  - repeat constructor.
Defined.

(** C1, as stated, fails on the reference row store: writing a sample with
    a feature that is a column already raises at the schema statement and
    leaves the earlier value in place; a value outside the column type, an
    empty feature list, a repeated featureId, a featureId that is not a
    column name and a sampleId with a quote in it make the call raise as
    well. *)
Lemma upsert_sample_then_matrix_counterexample :
  (upsert_sample reference_store "s1" ["f1"] [4%Z] true
     (upsert_sample reference_store "s1" ["f1"] [3%Z] true
        (cursor_on reference_store empty_table)).2).1
  = Raise (DatabaseError "SchemaConflict")
  ∧ (matrix reference_store ["s1"] ["f1"]
       (upsert_sample reference_store "s1" ["f1"] [4%Z] true
          (upsert_sample reference_store "s1" ["f1"] [3%Z] true
             (cursor_on reference_store empty_table)).2).2).1
    = Ok [[Text "s1"; Num 3%Z]]
  ∧ (upsert_sample reference_store "s1" ["f1"] [12345%Z] true
       (cursor_on reference_store empty_table)).1
    = Raise (DatabaseError "value out of range")
  ∧ (upsert_sample reference_store "s1" [] ([] : list Z) true
       (cursor_on reference_store empty_table)).1
    = Raise (DatabaseError "syntax error")
  ∧ (upsert_sample reference_store "s1" ["f1"; "f1"] [1; 2]%Z true
       (cursor_on reference_store empty_table)).1
    = Raise (DatabaseError "SchemaConflict")
  ∧ (upsert_sample reference_store "s1" ["my gene"] [1%Z] true
       (cursor_on reference_store empty_table)).1
    = Raise (DatabaseError "syntax error")
  ∧ (upsert_sample reference_store "o'neil" ["f1"] [1%Z] true
       (cursor_on reference_store empty_table)).1
    = Raise (DatabaseError "syntax error").
Proof. repeat split; vm_compute; reflexivity. Qed.

(** ** Schema evolution *)

(** The tokens of the schema statement. *)
Lemma lex_alter_sql featureIds :
  featureIds ≠ [] → Forall (λ x, is_ident x = true) featureIds →
  lex (alter_sql featureIds)
  = Some ((TWord <$> ["ALTER"; "TABLE"; "Expressions"; "ADD"])
            ++ col_tokens featureIds).
Proof.
  intros Hf Hfi. unfold lex, alter_sql, _feature_dtype_list.
  set (defs := join ", " _).
  rewrite !append_cons, !append_nil. simpl lex_go. subst defs.
  rewrite lex_join_coldefs by auto using Forall_ident_word.
  unfold snoc. by rewrite !append_cons, !append_nil.
Qed.

(** Every column definition is a name followed by the one column type. *)
Lemma col_tokens_pairs featureIds :
  col_tokens featureIds
  = sep_tokens_of (map (λ x, TWord x :: dtype_tokens) featureIds).
Proof.
  induction featureIds as [|x [|y xs] IH]; [done..|].
  change (col_tokens (x :: y :: xs))
    with (TWord x :: dtype_tokens ++ TComma :: col_tokens (y :: xs)).
  by rewrite IH.
Qed.

(** C5, as the code has it: for every non-empty list of featureIds that are
    column names, [_alter_expressions_table] hands exactly one statement to
    the cursor, an ALTER TABLE Expressions ADD followed by one
    comma-separated [name TYPE] pair per featureId, in order, where TYPE is
    the same constant DECIMAL(10, 6) for every one: the statement reads as
    the addition of exactly these columns. *)
Theorem alter_expressions_table_columns {V : Type} (B : Backend V)
    (featureIds : list string) (c : cursor B) :
  featureIds ≠ [] → Forall (λ x, is_ident x = true) featureIds →
  ∃ sql,
    issued (_alter_expressions_table B featureIds c).2 = issued c ++ [sql]
    ∧ lex sql
      = Some ((TWord <$> ["ALTER"; "TABLE"; "Expressions"; "ADD"])
                ++ sep_tokens_of
                     (map (λ x, [TWord x; TWord "DECIMAL"; TLParen;
                                 TWord "10"; TComma; TWord "6"; TRParen])
                        featureIds))
    ∧ read_statement sql = Some (AlterAdd featureIds).
Proof.
  intros Hne Hid. exists (alter_sql featureIds). split_and!.
  - apply execute_issued.
  - by rewrite lex_alter_sql, col_tokens_pairs.
  - by apply read_alter_sql.
Qed.

Lemma alter_expressions_table_columns_witness :
  ∃ sql,
    issued (_alter_expressions_table accept_all ["f1"; "f2"]
              (cursor_on accept_all ())).2 = [] ++ [sql]
    ∧ lex sql
      = Some ((TWord <$> ["ALTER"; "TABLE"; "Expressions"; "ADD"])
                ++ sep_tokens_of
                     (map (λ x, [TWord x; TWord "DECIMAL"; TLParen;
                                 TWord "10"; TComma; TWord "6"; TRParen])
                        ["f1"; "f2"]))
    ∧ read_statement sql = Some (AlterAdd ["f1"; "f2"]).
Proof.
  apply (alter_expressions_table_columns accept_all ["f1"; "f2"]
           (cursor_on accept_all ()));
    [discriminate | repeat constructor].
Defined.

(** C5, as stated, fails: a featureId that is not a column name does not
    give one [name TYPE] pair.  One featureId with a comma in it gives the
    statement of two featureIds, which adds two columns; the empty featureId
    gives a type without a name, which is no statement. *)
Lemma alter_expressions_table_columns_counterexample :
  issued (_alter_expressions_table accept_all ["a DECIMAL(10, 6), b"]
            (cursor_on accept_all ())).2
  = ["ALTER TABLE Expressions ADD a DECIMAL(10, 6), b DECIMAL(10, 6)"]
  ∧ read_statement (alter_sql ["a DECIMAL(10, 6), b"])
    = Some (AlterAdd ["a"; "b"])
  ∧ alter_sql [""] = "ALTER TABLE Expressions ADD  DECIMAL(10, 6)"
  ∧ read_statement (alter_sql [""]) = None.
Proof. repeat split; vm_compute; reflexivity. Qed.

(** ** Rows written before a failure *)

Section Committed.
Context {V : Type} `{Str V} `{Read V}.

(** A statement that the store rejects leaves the store as it was. *)
Lemma store_failure_unchanged sql (t t' : table V) e :
  run (reference_store (V := V)) sql t = (Some e, t') → t' = t.
Proof.
  simpl. unfold store_run, failed.
  destruct (read_statement sql) as [[]|]; simpl;
    repeat case_match; by intros [= <-].
Qed.

(** The row upserts of a batch, on columns that exist: all are accepted,
    the row of a sample that is not written again holds its vector, and the
    rows of other samples are as they were. *)
Lemma store_rows_script featureIds sampleIds (vectors : list (list V))
    (c : cursor (reference_store (V := V))) :
  featureIds ≠ [] → Forall (λ x, is_ident x = true) featureIds →
  Forall (λ x, x ∈ columns (store c)) featureIds →
  Forall (λ s, quote_free s = true) sampleIds →
  Forall (storable featureIds) vectors →
  ∃ c', run_script (reference_store (V := V))
          (row_sqls sampleIds featureIds vectors) c = (Ok (), c')
        ∧ columns (store c') = columns (store c)
        ∧ (∀ s, s ∉ sampleIds → rows (store c') !! s = rows (store c) !! s)
        ∧ (∀ j s v, sampleIds !! j = Some s → vectors !! j = Some v →
                    s ∉ drop (S j) sampleIds →
                    ∃ old, rows (store c') !! s
                           = Some (list_to_map (zip featureIds v) ∪ old)).
Proof.
  intros Hne Hid Hcols Hq Hvecs. revert vectors c Hcols Hvecs.
  induction Hq as [|s sampleIds Hs Hq IH]; intros vectors c Hcols Hvecs.
  - exists c. by split_and!.
  - destruct vectors as [|v vectors].
    { exists c. by split_and!. }
    apply Forall_cons in Hvecs as [[Hlen Hv] Hvecs].
    change (row_sqls (s :: sampleIds) featureIds (v :: vectors))
      with (upsert_sample_sql s featureIds v
              :: row_sqls sampleIds featureIds vectors).
    change (run_script (reference_store (V := V)) (?sql :: ?sqls) c)
      with (bind (reference_store (V := V))
              (execute (reference_store (V := V)) sql)
              (λ _, run_script (reference_store (V := V)) sqls) c).
    unfold bind, execute. rewrite store_upsert_row by done.
    match goal with |- context [run_script _ _ ?c1] =>
      destruct (IH vectors c1) as (c' & Hrun & Hc & Hother & Hrow);
        [done | done |] end.
    exists c'. rewrite Hrun. split_and!; [done | done | |].
    + intros s' Hs'. apply not_elem_of_cons in Hs' as [Hne' Hs'].
      rewrite Hother by done. simpl. by rewrite lookup_insert_ne.
    + intros [|j] s' v' Hs' Hv' Hlater; simpl in *.
      * injection Hs' as <-. injection Hv' as <-.
        rewrite Hother by done. simpl. rewrite lookup_insert_eq. by eexists.
      * by eapply Hrow.
Qed.

End Committed.

(** C9, on the reference row store: in a batch [upsert_samples] on new
    feature columns whose row upsert for index k is rejected, after the
    rows below k were written, the call raises that exception, what was
    handed to the cursor ends with the row upserts up to index k, and the
    rows of all indices below k stay in the store: [matrix] on the cursor the
    failure left returns, for every sample below k that the batch did not
    write again before k, exactly its vector.  The failure undoes no
    earlier row. *)
Theorem upsert_samples_no_rollback {V : Type} `{Str V} `{Read V}
    (c : cursor (@reference_store V _)) (sampleIds featureIds : list string)
    (vectors : list (list V)) (k : nat) (s : string) (v : list V) (e : exn) :
  featureIds ≠ [] → NoDup featureIds →
  Forall (λ x, is_ident x = true) featureIds →
  Forall (λ x, has_column (store c) x = false) featureIds →
  sampleIds !! k = Some s → vectors !! k = Some v →
  Forall (λ s, quote_free s = true) (take k sampleIds) →
  Forall (storable featureIds) (take k vectors) →
  (∀ t, (run reference_store (upsert_sample_sql s featureIds v) t).1
        = Some e) →
  let call := upsert_samples reference_store sampleIds featureIds vectors c in
  call.1 = Raise e
  ∧ issued call.2
    = issued c ++ alter_sql featureIds :: register_sqls featureIds
        ++ take (S k) (row_sqls sampleIds featureIds vectors)
  ∧ ∀ j sj vj,
      (j < k)%nat → sampleIds !! j = Some sj → vectors !! j = Some vj →
      sj ∉ drop (S j) (take k sampleIds) →
      (matrix reference_store [sj] featureIds call.2).1
      = Ok [Text sj :: map Num vj].
Proof.
  intros Hne Hnd Hid Hnew Hs Hv Hq Hvecs Hrej call.
  (* the schema statement and the registrations *)
  pose proof (store_alter (store c) featureIds Hne Hid Hnd Hnew) as Halter.
  destruct (store_register featureIds
              {| store := {| columns := list_to_set featureIds
                                        ∪ columns (store c);
                             rows := rows (store c);
                             catalog := catalog (store c);
                             pending := pending (store c) |}
                          : db reference_store;
                 issued := issued c ++ [alter_sql featureIds];
                 printed := printed c |})
    as (c2 & Hreg & Hc2 & _ & _).
  { eapply Forall_impl; [exact Hid|]. apply is_ident_quote_free. }
  simpl in Hc2.
  assert (Forall (λ x, x ∈ columns (store c2)) featureIds) as Hcols.
  { apply Forall_forall. intros x Hx. rewrite Hc2.
    by apply elem_of_union_l, elem_of_list_to_set. }
  (* the rows below k *)
  destruct (store_rows_script featureIds (take k sampleIds) (take k vectors)
              c2 Hne Hid Hcols Hq Hvecs)
    as (ck & Hrows & Hck & _ & Hrow).
  (* the row at k *)
  destruct (execute reference_store (upsert_sample_sql s featureIds v) ck)
    as [r c'] eqn:Hexec.
  assert (r = Raise e ∧ store c' = store ck) as [-> Hstore].
  { unfold execute in Hexec. specialize (Hrej (store ck)).
    destruct (run reference_store _ (store ck)) as [o d] eqn:Hrun.
    simpl in Hrej. subst o. injection Hexec as <- <-. split; [done|].
    simpl. by eapply store_failure_unchanged. }
  assert (run_script reference_store
            (alter_sql featureIds :: register_sqls featureIds
               ++ take k (row_sqls sampleIds featureIds vectors)) c
          = (Ok (), ck)) as Hbefore.
  { change (alter_sql featureIds :: ?l ++ ?r)
      with ([alter_sql featureIds] ++ l ++ r).
    rewrite run_script_app. unfold bind.
    unfold run_script at 1. simpl. unfold bind, execute. rewrite Halter.
    unfold ret. rewrite run_script_app. unfold bind. rewrite Hreg.
    unfold row_sqls. rewrite zip_with_take. apply Hrows. }
  destruct (upsert_samples_stops_at_failure reference_store sampleIds
              featureIds vectors c k s v ck c' e Hs Hv Hbefore Hexec)
    as (Hcall & Hissued & _).
  subst call. rewrite Hcall. simpl. split_and!; [done | |].
  - rewrite Hissued. f_equal. simpl. f_equal. rewrite <- app_assoc. f_equal.
    erewrite take_S_r; [done|]. by apply row_sqls_lookup.
  - intros j sj vj Hj Hsj Hvj Hlater.
    assert (take k sampleIds !! j = Some sj) as Hsj'
      by by rewrite lookup_take_lt.
    assert (take k vectors !! j = Some vj) as Hvj'
      by by rewrite lookup_take_lt.
    destruct (Hrow j sj vj Hsj' Hvj' Hlater) as [old Hold].
    assert (storable featureIds vj) as [Hlen Hvals]
      by (eapply Forall_forall in Hvecs; [done|];
          by eapply list_elem_of_lookup_2).
    assert (quote_free sj = true) as Hqj
      by (eapply Forall_forall in Hq; [done|];
          by eapply list_elem_of_lookup_2).
    unfold matrix, bind, execute, fetchall.
    rewrite store_select; [|done|done|done|by repeat constructor|].
    + simpl. f_equal. rewrite Hstore.
      erewrite select_one_row by exact Hold.
      change (cell_of sj ?r <$> "sampleId" :: featureIds)
        with (Text sj :: (cell_of sj r <$> featureIds)).
      rewrite cells_of_row; [done..|].
      eapply Forall_impl; [exact Hnew|]. intros x Hx.
      by apply has_column_false in Hx as [? _].
    + rewrite Hstore. eapply Forall_impl; [exact Hcols|]. intros x Hx.
      unfold has_column. apply bool_decide_eq_true. right. by rewrite Hck.
Qed.

Lemma upsert_samples_no_rollback_witness :
  (matrix reference_store ["s1"] ["f1"]
     (upsert_samples reference_store ["s1"; "s2"; "s3"] ["f1"]
        [[1]; [12345]; [3]]%Z (cursor_on reference_store empty_table)).2).1
  = Ok [[Text "s1"; Num 1%Z]].
Proof.
  refine (proj2 (proj2 (upsert_samples_no_rollback
                          (cursor_on reference_store empty_table)
                          ["s1"; "s2"; "s3"] ["f1"] [[1]; [12345]; [3]]%Z
                          1 "s2" [12345%Z]
                          (DatabaseError "value out of range")
                          _ _ _ _ _ _ _ _ _))
            0%nat "s1" [1%Z] _ _ _ _).
  - discriminate.
  - apply (bool_decide_unpack _). vm_compute. reflexivity.
  - repeat constructor.
  - repeat constructor.
  - reflexivity.
  - reflexivity.
  - repeat constructor.
  - repeat constructor.
  - intros t. reflexivity.
  - lia.
  - reflexivity.
  - reflexivity.
  - simpl. apply not_elem_of_nil.
Defined.

(** * Further properties of the client *)

(** ** Single operations and batches *)

Lemma bind_ret_unit {V : Type} (B : Backend V) (m : M B ()) (c : cursor B) :
  bind B m (λ _, ret B ()) c = m c.
Proof. unfold bind, ret. by destruct (m c) as [[[]|e] c1]. Qed.

Lemma for_each_ext {V : Type} (B : Backend V) {A} (xs : list A)
    (body body' : A → M B ()) (c : cursor B) :
  (∀ x c', body x c' = body' x c') →
  for_each B xs body c = for_each B xs body' c.
Proof.
  intros Hext. revert c. induction xs as [|x xs IH]; intros c; [done|].
  simpl. unfold bind. rewrite Hext.
  destruct (body' x c) as [[[]|e] c1]; auto.
Qed.

Lemma upsert_features_catalog_script {V : Type} (B : Backend V)
    (featureIds : list string) (featureNames : option (list string))
    (c : cursor B) :
  truthy_list featureNames = false
  ∨ length featureIds = len_opt featureNames →
  _upsert_features B featureIds featureNames c
  = run_script B (catalog_sqls featureIds featureNames) c.
Proof.
  intros Hnames. unfold _upsert_features, catalog_sqls.
  destruct (truthy_list featureNames) eqn:Htruthy.
  - destruct Hnames as [|Hlen]; [done|].
    rewrite bool_decide_true by done. simpl.
    rewrite (zip_with_zip (λ x name, upsert_feature_sql x (Some name))).
    unfold run_script. rewrite (for_each_map B).
    apply for_each_ext. by intros [x name] c'.
  - simpl. unfold run_script, register_sqls. by rewrite (for_each_map B).
Qed.

(** X1: [upsert_feature] is [upsert_features] on the one-element lists:
    the same statements, the same outcome, the same cursor. *)
Theorem upsert_feature_as_batch {V : Type} (B : Backend V)
    (featureId : string) (featureName : option string) (c : cursor B) :
  upsert_feature B featureId featureName c
  = upsert_features B [featureId] (one_name featureName) c.
Proof.
  unfold upsert_feature, upsert_features, bind.
  destruct (_alter_expressions_table B [featureId] c) as [[[]|e] c1]; [|done].
  rewrite upsert_features_catalog_script
    by (destruct featureName; [by right | by left]).
  unfold catalog_sqls, run_script, _upsert_feature.
  destruct featureName as [name|]; simpl; by rewrite bind_ret_unit.
Qed.

(** X2: [upsert_samples] on one sample and one vector is [upsert_sample]
    with add_features set: the same statements, outcome and cursor. *)
Theorem upsert_sample_as_batch {V : Type} `{Str V} (B : Backend V)
    (sampleId : string) (featureIds : list string) (values : list V)
    (c : cursor B) :
  upsert_samples B [sampleId] featureIds [values] c
  = upsert_sample B sampleId featureIds values true c.
Proof.
  rewrite upsert_samples_script, upsert_sample_script.
  change (batch_plan [sampleId] featureIds [values])
    with (sample_plan sampleId featureIds values).
  apply bind_ret_unit.
Qed.

(** X3: when featureNames is absent or empty, or has the length of
    featureIds, [upsert_features] hands the cursor the schema statement and
    then one catalog upsert per featureId in order, carrying the name of the
    same position when names are given: an initial part of that sequence in
    any case, all of it when the call returns, and it returns on a backend
    that accepts the statements. *)
Theorem upsert_features_order {V : Type} (B : Backend V)
    (featureIds : list string) (featureNames : option (list string))
    (c : cursor B) :
  truthy_list featureNames = false
  ∨ length featureIds = len_opt featureNames →
  let upserts := catalog_sqls featureIds featureNames in
  let call := upsert_features B featureIds featureNames c in
  (∃ n, issued call.2 = issued c ++ alter_sql featureIds :: take n upserts)
  ∧ (call.1 = Ok () →
     issued call.2 = issued c ++ alter_sql featureIds :: upserts)
  ∧ ((∀ sql d, (run B sql d).1 = None) → call.1 = Ok ())
  ∧ length upserts = length featureIds
  ∧ (∀ k x name, featureIds !! k = Some x →
       default [] featureNames !! k = Some name →
       upserts !! k = Some (upsert_feature_sql x (Some name))).
Proof.
  intros Hnames upserts call.
  assert (call = run_script B (alter_sql featureIds :: upserts) c) as ->.
  { unfold call, upsert_features, _alter_expressions_table, run_script.
    simpl. unfold bind. destruct (execute B _ c) as [[[]|e] c1]; [|done].
    by rewrite upsert_features_catalog_script. }
  split_and!.
  - apply run_script_prefix_cons.
  - apply run_script_ok.
  - apply run_script_accepting.
  - unfold upserts, catalog_sqls.
    destruct (truthy_list featureNames) eqn:Htruthy.
    + destruct Hnames as [|Hlen]; [done|]. rewrite length_zip_with.
      destruct featureNames; simpl in *; lia.
    + apply length_map.
  - intros k x name Hx Hname. unfold upserts, catalog_sqls.
    destruct featureNames as [[|n ns]|]; [done| |done].
    simpl truthy_list. cbv iota. by rewrite lookup_zip_with, Hx, Hname.
Qed.

Lemma upsert_features_order_witness :
  issued (upsert_features accept_all ["f1"; "f2"] (Some ["one"; ""])
            (cursor_on accept_all ())).2
  = ["ALTER TABLE Expressions ADD f1 DECIMAL(10, 6), f2 DECIMAL(10, 6)";
     "UPSERT INTO Features(featureId, featureName) VALUES ('f1', 'one')";
     "UPSERT INTO Features(featureId) VALUES ('f2')"].
Proof.
  pose proof (upsert_features_order accept_all ["f1"; "f2"]
                (Some ["one"; ""]) (cursor_on accept_all ())
                (or_intror eq_refl)) as (_ & Hok & _).
  exact (Hok eq_refl).
Defined.

(** ** What a failure leaves undone *)

(** X4: when the schema statement raises, [upsert_feature] and
    [upsert_features] raise the same exception and hand nothing else to the
    cursor: no catalog upsert is issued, and the backend is left as the
    schema statement left it. *)
Theorem schema_failure_skips_catalog {V : Type} (B : Backend V)
    (featureId : string) (featureName : option string)
    (featureIds : list string) (featureNames : option (list string))
    (c : cursor B) :
  let failed_at sql :=
    λ e, (Raise e : result (),
          {| store := (run B sql (store c)).2; issued := issued c ++ [sql];
             printed := printed c |}) in
  (∀ e, (run B (alter_sql [featureId]) (store c)).1 = Some e →
        upsert_feature B featureId featureName c
        = failed_at (alter_sql [featureId]) e)
  ∧ (∀ e, (run B (alter_sql featureIds) (store c)).1 = Some e →
          upsert_features B featureIds featureNames c
          = failed_at (alter_sql featureIds) e).
Proof.
  intros failed_at. unfold failed_at.
  split; intros e He;
    unfold upsert_feature, upsert_features, _alter_expressions_table, bind,
      execute;
    match goal with |- context [run B ?sql (store c)] =>
      destruct (run B sql (store c)) as [o d] end;
    simpl in He; by subst o.
Qed.

Lemma schema_failure_skips_catalog_witness :
  upsert_features (fail_at 0) ["f1"] (Some ["one"]) (cursor_on (fail_at 0) 0%nat)
  = (Raise (DatabaseError "ALTER TABLE Expressions ADD f1 DECIMAL(10, 6)"),
     {| store := 1%nat : db (fail_at 0);
        issued := [] ++ ["ALTER TABLE Expressions ADD f1 DECIMAL(10, 6)"];
        printed := [] |}).
Proof.
  exact (proj2 (schema_failure_skips_catalog (fail_at 0) "f1" None ["f1"]
                  (Some ["one"]) (cursor_on (fail_at 0) 0%nat)) _ eq_refl).
Defined.

(** X5: [upsert_sample] with add_features set, and [upsert_samples], hand
    a row upsert to the cursor only after the schema statement and every
    catalog upsert were accepted: when one of those raises, the call raises
    the same exception in the state that statement left, with no row
    written. *)
Theorem registration_failure_skips_rows {V : Type} `{Str V} (B : Backend V)
    (sampleId : string) (sampleIds featureIds : list string)
    (values : list V) (vectors : list (list V)) (c c' : cursor B) (e : exn) :
  run_script B (alter_sql featureIds :: register_sqls featureIds) c
  = (Raise e, c') →
  upsert_sample B sampleId featureIds values true c = (Raise e, c')
  ∧ upsert_samples B sampleIds featureIds vectors c = (Raise e, c')
  ∧ ∃ n, issued c'
         = issued c ++ alter_sql featureIds :: take n (register_sqls featureIds).
Proof.
  intros Hfail. split_and!.
  - rewrite upsert_sample_script. unfold sample_plan.
    change (alter_sql featureIds :: ?l ++ ?r)
      with ((alter_sql featureIds :: l) ++ r).
    rewrite run_script_app. unfold bind. by rewrite Hfail.
  - rewrite upsert_samples_script. unfold batch_plan.
    change (alter_sql featureIds :: ?l ++ ?r)
      with ((alter_sql featureIds :: l) ++ r).
    unfold bind. rewrite run_script_app. unfold bind. by rewrite Hfail.
  - destruct (run_script_prefix_cons B (alter_sql featureIds)
                (register_sqls featureIds) c) as [n Hn].
    rewrite Hfail in Hn. by exists n.
Qed.

Lemma registration_failure_skips_rows_witness :
  upsert_samples (fail_at 2) ["s1"; "s2"] ["f1"; "f2"] [[1; 2]; [3; 4]]%Z
    (cursor_on (fail_at 2) 0%nat)
  = (Raise (DatabaseError "UPSERT INTO Features(featureId) VALUES ('f2')"),
     {| store := 3%nat : db (fail_at 2);
        issued := ["ALTER TABLE Expressions ADD f1 DECIMAL(10, 6), f2 DECIMAL(10, 6)";
                   "UPSERT INTO Features(featureId) VALUES ('f1')";
                   "UPSERT INTO Features(featureId) VALUES ('f2')"];
        printed := [] |}).
Proof.
  refine (proj1 (proj2 (registration_failure_skips_rows (fail_at 2) "s1"
                          ["s1"; "s2"] ["f1"; "f2"] [1; 2]%Z
                          [[1; 2]; [3; 4]]%Z (cursor_on (fail_at 2) 0%nat)
                          _ _ _))).
  reflexivity.
Defined.

(** ** Vectors and samples of different number *)



(** X7: vectors beyond the number of sampleIds are never read:
    [upsert_samples] with more vectors than samples does what it does with
    the vectors of the samples alone. *)
Theorem upsert_samples_extra_vectors {V : Type} `{Str V} (B : Backend V)
    (sampleIds featureIds : list string) (vectors : list (list V))
    (c : cursor B) :
  (length sampleIds ≤ length vectors)%nat →
  upsert_samples B sampleIds featureIds vectors c
  = upsert_samples B sampleIds featureIds (take (length sampleIds) vectors) c.
Proof.
  intros Hlen. rewrite !upsert_samples_script. unfold batch_plan, row_sqls.
  rewrite zip_with_take_r, length_take.
  rewrite (bool_decide_ext
             (length sampleIds ≤ length sampleIds `min` length vectors)%nat
             (length sampleIds ≤ length vectors)%nat) by lia.
  done.
Qed.

Lemma upsert_samples_extra_vectors_witness :
  upsert_samples accept_all ["s1"] ["f1"] [[3]; [4]]%Z
    (cursor_on accept_all ())
  = upsert_samples accept_all ["s1"] ["f1"] (take 1 [[3]; [4]]%Z)
      (cursor_on accept_all ()).
Proof.
  apply (upsert_samples_extra_vectors accept_all ["s1"] ["f1"] [[3]; [4]]%Z
           (cursor_on accept_all ())).
  simpl. lia.
Defined.

(** ** Reading keys *)

Section KeyFacts.
Context {V : Type} (B : Backend V).

(** After a statement that raised, nothing is fetched. *)
Lemma execute_then_raises {A} (sql : string) (k : M B A) (c : cursor B) e :
  (run B sql (store c)).1 = Some e →
  bind B (execute B sql) (λ _, k) c
  = (Raise e, {| store := (run B sql (store c)).2;
                 issued := issued c ++ [sql]; printed := printed c |}).
Proof.
  intros He. unfold bind, execute.
  destruct (run B sql (store c)) as [o d]. simpl in He. by subst o.
Qed.

Lemma execute_then_returns {A} (sql : string) (k : M B A) (c : cursor B) :
  (run B sql (store c)).1 = None →
  bind B (execute B sql) (λ _, k) c
  = k {| store := (run B sql (store c)).2;
         issued := issued c ++ [sql]; printed := printed c |}.
Proof.
  intros He. unfold bind, execute.
  destruct (run B sql (store c)) as [o d]. simpl in He. by subst o.
Qed.

Lemma mapM_head_rows (fetched : list (list (cell V))) :
  Forall (λ r, r ≠ []) fetched →
  ∃ keys, mapM head fetched = Some keys
          ∧ length keys = length fetched
          ∧ ∀ k r, fetched !! k = Some r → Some <$> keys !! k = Some (head r).
Proof.
  induction 1 as [|r rs Hr _ (keys & Hkeys & Hlen & Hat)].
  - exists []. by split_and!.
  - destruct r as [|x r]; [done|]. exists (x :: keys). split_and!.
    + simpl. by rewrite Hkeys.
    + simpl. by rewrite Hlen.
    + intros [|k] r'; simpl; [by intros [= <-] | apply Hat].
Qed.

Lemma fetchall_keys_result (c : cursor B) :
  (_fetchall_keys B c).1
  = match (fetch B (store c)).1 with
    | Ok fetched =>
        match mapM head fetched with
        | Some keys => Ok keys
        | None => Raise IndexError
        end
    | Raise e => Raise e
    end.
Proof.
  unfold _fetchall_keys, bind, fetchall.
  destruct (fetch B (store c)) as [[fetched|e] d]; [|done]. simpl.
  by destruct (mapM head fetched).
Qed.

End KeyFacts.

(** X8: [_fetchall_keys] returns one key per fetched row, in order, each
    the first element of its row; it raises IndexError as soon as a fetched
    row is empty, and passes on the exception of [fetchall]; it hands no
    statement to the cursor. *)
Theorem fetchall_keys_first_elements {V : Type} (B : Backend V)
    (c : cursor B) :
  issued (_fetchall_keys B c).2 = issued c
  ∧ (∀ e, (fetch B (store c)).1 = Raise e → (_fetchall_keys B c).1 = Raise e)
  ∧ (∀ fetched, (fetch B (store c)).1 = Ok fetched →
       (Forall (λ r, r ≠ []) fetched →
        ∃ keys, (_fetchall_keys B c).1 = Ok keys
                ∧ length keys = length fetched
                ∧ ∀ k r, fetched !! k = Some r →
                         Some <$> keys !! k = Some (head r))
       ∧ ([] ∈ fetched → (_fetchall_keys B c).1 = Raise IndexError)).
Proof.
  split_and!.
  - unfold _fetchall_keys, bind, fetchall.
    destruct (fetch B (store c)) as [[fetched|e] d]; [|done]. simpl.
    by destruct (mapM head fetched).
  - intros e He. by rewrite fetchall_keys_result, He.
  - intros fetched Hf. rewrite fetchall_keys_result, Hf. split.
    + intros Hrows.
      destruct (mapM_head_rows fetched Hrows) as (keys & -> & Hlen & Hat).
      by exists keys.
    + intros Hempty. rewrite (mapM_None_2 head fetched); [done|].
      apply Exists_exists. by exists [].
Qed.

Lemma fetchall_keys_first_elements_witness :
  (∃ keys, (_fetchall_keys (serving [[Text "s1"; Num 3%Z]; [Text "s2"; Null]])
              (cursor_on (serving [[Text "s1"; Num 3%Z]; [Text "s2"; Null]])
                 ())).1 = Ok keys
           ∧ length keys = 2%nat
           ∧ ∀ k r, [[Text "s1"; Num 3%Z]; [Text "s2"; Null]] !! k = Some r →
                    Some <$> keys !! k = Some (head r))
  ∧ (_fetchall_keys (serving [[Text "s1"]; []])
       (cursor_on (serving [[Text "s1"]; []]) ())).1 = Raise IndexError.
Proof.
  split.
  - apply (proj2 (proj2 (fetchall_keys_first_elements
                           (serving [[Text "s1"; Num 3%Z]; [Text "s2"; Null]])
                           (cursor_on (serving _) ()))) _ eq_refl).
    repeat constructor; discriminate.
  - apply (proj2 (proj2 (fetchall_keys_first_elements
                           (serving [[Text "s1"]; []])
                           (cursor_on (serving _) ()))) _ eq_refl).
    apply list_elem_of_further, list_elem_of_here.
Defined.

(** What a listing does with a given query text. *)
Lemma list_keys_behaviour {V : Type} (B : Backend V) (sql : string)
    (c : cursor B) :
  let after := {| store := (run B sql (store c)).2;
                  issued := issued c ++ [sql]; printed := printed c |} in
  let call := bind B (execute B sql) (λ _, _fetchall_keys B) c in
  issued call.2 = issued c ++ [sql]
  ∧ (∀ e, (run B sql (store c)).1 = Some e → call = (Raise e, after))
  ∧ (∀ fetched,
       (run B sql (store c)).1 = None →
       (fetch B (store after)).1 = Ok fetched →
       Forall (λ r, r ≠ []) fetched →
       ∃ keys, call.1 = Ok keys
               ∧ length keys = length fetched
               ∧ ∀ k r, fetched !! k = Some r →
                        Some <$> keys !! k = Some (head r)).
Proof.
  intros after call. split_and!.
  - subst call. destruct ((run B sql (store c)).1) as [e|] eqn:He.
    + by rewrite (execute_then_raises B sql _ c e He).
    + rewrite (execute_then_returns B sql _ c He).
      unfold _fetchall_keys, bind, fetchall. simpl.
      destruct (fetch B _) as [[fetched|e] d]; [|done]. simpl.
      by destruct (mapM head fetched).
  - intros e He. subst call. by rewrite (execute_then_raises B sql _ c e He).
  - intros fetched He Hf Hrows. subst call.
    rewrite (execute_then_returns B sql _ c He). fold after.
    rewrite fetchall_keys_result, Hf.
    destruct (mapM_head_rows fetched Hrows) as (keys & -> & Hlen & Hat).
    by exists keys.
Qed.

(** X9: [list_features] hands the cursor exactly one statement, the SELECT
    on Features with the given limit and offset; when it raises, the call
    raises the same exception without fetching; when it is accepted, the
    call returns the first element of every fetched row, in order. *)
Theorem list_features_keys {V : Type} (B : Backend V) (limit offset : Z)
    (c : cursor B) :
  let sql :=
    "SELECT * from Features LIMIT " +:+ str limit +:+
    " OFFSET " +:+ str offset in
  let after := {| store := (run B sql (store c)).2;
                  issued := issued c ++ [sql]; printed := printed c |} in
  let call := list_features B limit offset c in
  issued call.2 = issued c ++ [sql]
  ∧ (∀ e, (run B sql (store c)).1 = Some e → call = (Raise e, after))
  ∧ (∀ fetched,
       (run B sql (store c)).1 = None →
       (fetch B (store after)).1 = Ok fetched →
       Forall (λ r, r ≠ []) fetched →
       ∃ keys, call.1 = Ok keys
               ∧ length keys = length fetched
               ∧ ∀ k r, fetched !! k = Some r →
                        Some <$> keys !! k = Some (head r)).
Proof. apply list_keys_behaviour. Qed.

Lemma list_features_keys_witness :
  ∃ keys,
    (list_features (serving [[Text "f1"; Text "one"]; [Text "f2"; Null]])
       10 0 (cursor_on (serving _) ())).1 = Ok keys
    ∧ length keys = 2%nat
    ∧ ∀ k r, [[Text "f1"; Text "one"]; [Text "f2"; Null]] !! k = Some r →
             Some <$> keys !! k = Some (head r).
Proof.
  apply (proj2 (proj2 (list_features_keys
                         (serving [[Text "f1"; Text "one"]; [Text "f2"; Null]])
                         10 0 (cursor_on (serving _) ()))) _ eq_refl eq_refl).
  repeat constructor; discriminate.
Defined.

(** X10: [list_samples] hands the cursor exactly one statement, the SELECT
    of sampleId on Expressions with the given limit and offset; when it
    raises, the call raises the same exception without fetching; when it is
    accepted, the call returns the first element of every fetched row, in
    order. *)
Theorem list_samples_keys {V : Type} (B : Backend V) (limit offset : Z)
    (c : cursor B) :
  let sql :=
    "SELECT sampleId from Expressions LIMIT " +:+ str limit +:+
    " OFFSET " +:+ str offset in
  let after := {| store := (run B sql (store c)).2;
                  issued := issued c ++ [sql]; printed := printed c |} in
  let call := list_samples B limit offset c in
  issued call.2 = issued c ++ [sql]
  ∧ (∀ e, (run B sql (store c)).1 = Some e → call = (Raise e, after))
  ∧ (∀ fetched,
       (run B sql (store c)).1 = None →
       (fetch B (store after)).1 = Ok fetched →
       Forall (λ r, r ≠ []) fetched →
       ∃ keys, call.1 = Ok keys
               ∧ length keys = length fetched
               ∧ ∀ k r, fetched !! k = Some r →
                        Some <$> keys !! k = Some (head r)).
Proof. apply list_keys_behaviour. Qed.

Lemma list_samples_keys_witness :
  ∃ keys,
    (list_samples (serving [[Text "s1"]; [Text "s2"]])
       1000000 0 (cursor_on (serving _) ())).1 = Ok keys
    ∧ length keys = 2%nat
    ∧ ∀ k r, [[Text "s1"]; [Text "s2"]] !! k = Some r →
             Some <$> keys !! k = Some (head r).
Proof.
  apply (proj2 (proj2 (list_samples_keys (serving [[Text "s1"]; [Text "s2"]])
                         1000000 0 (cursor_on (serving _) ())))
           _ eq_refl eq_refl).
  repeat constructor; discriminate.
Defined.

(** X11: [matrix] hands the cursor exactly one statement, the text of
    [matrix_sql]; when it raises, the call raises the same exception without
    fetching; when it is accepted, the call returns what [fetchall] returns
    in the state the statement left, rows and columns untouched. *)
Theorem matrix_fetches_query {V : Type} (B : Backend V)
    (sampleIds featureIds : list string) (c : cursor B) :
  let sql := matrix_sql sampleIds featureIds in
  let after := {| store := (run B sql (store c)).2;
                  issued := issued c ++ [sql]; printed := printed c |} in
  let call := matrix B sampleIds featureIds c in
  issued call.2 = issued c ++ [sql]
  ∧ (∀ e, (run B sql (store c)).1 = Some e → call = (Raise e, after))
  ∧ ((run B sql (store c)).1 = None →
     call.1 = (fetch B (store after)).1
     ∧ store call.2 = (fetch B (store after)).2).
Proof.
  intros sql after call. subst call. unfold matrix. split_and!.
  - destruct ((run B sql (store c)).1) as [e|] eqn:He.
    + by rewrite (execute_then_raises B sql _ c e He).
    + rewrite (execute_then_returns B sql _ c He). unfold fetchall. simpl.
      by destruct (fetch B _).
  - intros e He. by rewrite (execute_then_raises B sql _ c e He).
  - intros He. rewrite (execute_then_returns B sql _ c He). fold after.
    unfold fetchall. by destruct (fetch B (store after)).
Qed.

Lemma matrix_fetches_query_witness :
  (matrix (serving [[Text "s1"; Num 3%Z]]) ["s1"] ["f1"]
     (cursor_on (serving _) ())).1
  = Ok [[Text "s1"; Num 3%Z]].
Proof.
  exact (proj1 (proj2 (proj2 (matrix_fetches_query
                                (serving [[Text "s1"; Num 3%Z]]) ["s1"] ["f1"]
                                (cursor_on (serving _) ()))) eq_refl)).
Defined.

(** ** Statement text and its arguments *)

(** The catalog upsert with a name, read back. *)
Lemma read_upsert_feature_sql_named featureId a name :
  quote_free featureId = true → quote_free (String a name) = true →
  read_statement (upsert_feature_sql featureId (Some (String a name)))
  = Some (UpsertFeature featureId (Some (String a name))).
Proof.
  intros Hf Hn. unfold read_statement, lex, upsert_feature_sql.
  simpl truthy_str. cbv iota. simpl default.
  remember (String a name) as given eqn:Hgiven.
  rewrite !append_cons, !append_nil. simpl lex_go.
  rewrite lex_go_in_str by done. simpl lex_go.
  rewrite lex_go_in_str by done. simpl lex_go.
  unfold snoc. rewrite !append_cons, !append_nil. reflexivity.
Qed.

(** X12: the schema statement names its columns faithfully: for a
    non-empty list of column names, the text of [alter_sql] reads back as
    the addition of exactly these columns in this order, so that two such
    lists with the same text are the same list. *)
Theorem alter_sql_round_trip (featureIds : list string) :
  featureIds ≠ [] → Forall (λ x, is_ident x = true) featureIds →
  read_statement (alter_sql featureIds) = Some (AlterAdd featureIds)
  ∧ ∀ others, others ≠ [] → Forall (λ x, is_ident x = true) others →
              alter_sql featureIds = alter_sql others → featureIds = others.
Proof.
  intros Hne Hid. split; [by apply read_alter_sql|].
  intros others Hne' Hid' Heq.
  pose proof (read_alter_sql featureIds Hne Hid) as Hr.
  rewrite Heq, read_alter_sql in Hr by done. by injection Hr.
Qed.

Lemma alter_sql_round_trip_witness :
  read_statement (alter_sql ["f1"; "f2"]) = Some (AlterAdd ["f1"; "f2"]).
Proof.
  apply (alter_sql_round_trip ["f1"; "f2"]);
    [discriminate | repeat constructor].
Defined.

(** X13: on non-empty lists of quote-free sampleIds and of column names,
    [matrix_sql] is injective: the text of the query determines both
    lists. *)
Theorem matrix_sql_injective (sampleIds featureIds sampleIds' featureIds'
    : list string) :
  featureIds ≠ [] → Forall (λ x, is_ident x = true) featureIds →
  sampleIds ≠ [] → Forall (λ k, quote_free k = true) sampleIds →
  featureIds' ≠ [] → Forall (λ x, is_ident x = true) featureIds' →
  sampleIds' ≠ [] → Forall (λ k, quote_free k = true) sampleIds' →
  matrix_sql sampleIds featureIds = matrix_sql sampleIds' featureIds' →
  sampleIds = sampleIds' ∧ featureIds = featureIds'.
Proof.
  intros Hf Hfi Hs Hsq Hf' Hfi' Hs' Hsq' Heq.
  pose proof (read_matrix_sql sampleIds featureIds Hf Hfi Hs Hsq) as Hr.
  rewrite Heq, read_matrix_sql in Hr by done. by injection Hr.
Qed.

Lemma matrix_sql_injective_witness :
  ["s1"] = ["s1"] ∧ ["f1"; "f2"] = ["f1"; "f2"].
Proof.
  apply (matrix_sql_injective ["s1"] ["f1"; "f2"] ["s1"] ["f1"; "f2"]);
    try discriminate; try reflexivity; repeat constructor.
Defined.

(** X14: the row upsert carries its arguments faithfully: for a quote-free
    sampleId, a non-empty list of column names and a non-empty list of
    values that print as one word each, the text of [_upsert_sample] reads
    back as the upsert of these columns, in order, for this sampleId, with
    the printed values in order. *)
Theorem upsert_sample_sql_round_trip {V : Type} `{Str V} (sampleId : string)
    (featureIds : list string) (values : list V) :
  featureIds ≠ [] → Forall (λ x, is_ident x = true) featureIds →
  quote_free sampleId = true →
  values ≠ [] → Forall (λ v, is_word (str v) = true) values →
  ∃ cols key vals,
    read_statement (upsert_sample_sql sampleId featureIds values)
    = Some (UpsertRow cols key vals)
    ∧ cols = featureIds ∧ key = sampleId ∧ vals = map str values.
Proof.
  intros Hf Hfi Hq Hv Hvw. exists featureIds, sampleId, (map str values).
  by rewrite read_upsert_sample_sql.
Qed.

Lemma upsert_sample_sql_round_trip_witness :
  ∃ cols key vals,
    read_statement (upsert_sample_sql "s1" ["f1"; "f2"] [3; -7]%Z)
    = Some (UpsertRow cols key vals)
    ∧ cols = ["f1"; "f2"] ∧ key = "s1" ∧ vals = map str [3; -7]%Z.
Proof.
  apply (upsert_sample_sql_round_trip "s1" ["f1"; "f2"] [3; -7]%Z);
    try discriminate; try reflexivity; repeat constructor.
Defined.

(** X15: the catalog upsert carries its arguments faithfully: for a
    quote-free featureId and a quote-free name, if one is given, the text of
    [_upsert_feature] reads back as the upsert of this featureId with this
    name, and without a name when the name is absent or empty. *)
Theorem upsert_feature_sql_round_trip (featureId : string)
    (featureName : option string) :
  quote_free featureId = true →
  quote_free (default "" featureName) = true →
  read_statement (upsert_feature_sql featureId featureName)
  = Some (UpsertFeature featureId
            (if truthy_str featureName then featureName else None)).
Proof.
  intros Hf Hn. destruct featureName as [[|a name]|].
  - by apply read_upsert_feature_sql.
  - by apply read_upsert_feature_sql_named.
  - by apply read_upsert_feature_sql.
Qed.

Lemma upsert_feature_sql_round_trip_witness :
  read_statement (upsert_feature_sql "f1" (Some "gene one"))
  = Some (UpsertFeature "f1" (Some "gene one")).
Proof.
  apply (upsert_feature_sql_round_trip "f1" (Some "gene one")); reflexivity.
Defined.


Lemma join_unescaped (a b : string) (others : list string) :
  join ", " ((a +:+ ", " +:+ b) :: others) = join ", " (a :: b :: others).
Proof.
  destruct others as [|x xs]; [done|].
  rewrite !join_cons. by rewrite !append_assoc.
Qed.

(** X17: identifiers are interpolated as they are: a featureId that
    contains [", "] gives the same query and the same row upsert as the two
    featureIds around it, and a sampleId that contains ["', '"] gives the
    same query as the two sampleIds around it. *)
Theorem identifiers_not_escaped {V : Type} `{Str V} (a b sampleId : string)
    (others sampleIds featureIds : list string) (values : list V) :
  matrix_sql sampleIds ((a +:+ ", " +:+ b) :: others)
  = matrix_sql sampleIds (a :: b :: others)
  ∧ upsert_sample_sql sampleId ((a +:+ ", " +:+ b) :: others) values
    = upsert_sample_sql sampleId (a :: b :: others) values
  ∧ matrix_sql ((a +:+ "', '" +:+ b) :: others) featureIds
    = matrix_sql (a :: b :: others) featureIds.
Proof.
  split_and!.
  - unfold matrix_sql. cbv zeta. by rewrite join_unescaped.
  - unfold upsert_sample_sql. by rewrite join_unescaped.
  - unfold matrix_sql. cbv zeta. do 4 f_equal.
    change (map ?f (?x :: others)) with (f x :: map f others).
    change (map ?f (a :: b :: others)) with (f a :: f b :: map f others).
    cbv beta. destruct (map _ others) as [|x xs].
    + change (join ", " [?x]) with x. rewrite join_cons.
      change (join ", " [?x]) with x. by rewrite !append_assoc.
    + rewrite !join_cons. by rewrite !append_assoc.
Qed.
